(** * An SNMPv1 agent engine: registry, access control and PDU dispatch

    A shallow embedding of the Go package [snmp] (agent file and [asn1.go]):
    the managed-object registry ([AddRoManagedObject], [AddRwManagedObject],
    [getManagedObject]), the community check ([checkCommunity]), the PDU
    processor ([processPdu]) and the dispatcher ([ProcessMessage],
    [ProcessDatagram]).

    Go [int] values are [Z] (every counter here is bounded by a slice
    length, so no wrap-around arises), slices are lists, a [nil] pointer or
    [nil] error is [None].  Accessor callbacks are Go closures: they read
    and change state outside the agent, so they are functions over an
    abstract [World], and every call the processor makes is recorded in a
    call trace next to the world. *)

From Stdlib Require Import ZArith NArith List String Ascii Bool Lia.
From Stdlib Require Import Sorted Permutation.
From Stdlib Require Import DecimalString DecimalN.
Import ListNotations.
Open Scope string_scope.
Open Scope list_scope.
Open Scope Z_scope.

(** ** The OID type of the external [asn1] package *)

Module Asn1.

(** [asn1.Oid] is a slice of unsigned integers. *)
Definition Oid := list N.

(** Modelled from the spec: [asn1.Oid.Cmp] belongs to the external package
    [PromonLogicalis/asn1]; the spec gives its contract: the comparison is
    lexicographic component by component, and a shorter prefix sorts
    before any sequence it prefixes.  The result is negative, zero or
    positive. *)
Fixpoint Cmp (oid other : Oid) : Z :=
  match oid, other with
  | [], [] => 0
  | [], _ :: _ => -1
  | _ :: _, [] => 1
  | n :: oid', m :: other' =>
      if (n =? m)%N then Cmp oid' other'
      else if (n <? m)%N then -1 else 1
  end.

End Asn1.

Import Asn1.

(** ** Wire-level data ([asn1.go]) *)

(** SNMP error codes. *)
Definition NoError : Z := 0.
Definition TooBig : Z := 1.
Definition NoSuchName : Z := 2.
Definition BadValue : Z := 3.
Definition ReadOnly : Z := 4.
Definition GenErr : Z := 5.
Definition NoAccess : Z := 6.
Definition WrongType : Z := 7.
Definition WrongLength : Z := 8.
Definition WrongEncoding : Z := 9.
Definition WrongValue : Z := 10.
Definition NoCreation : Z := 11.
Definition InconsistentValue : Z := 12.
Definition ResourceUnavailable : Z := 13.
Definition CommitFailed : Z := 14.
Definition UndoFailed : Z := 15.
Definition AuthorizationError : Z := 16.
Definition NotWritable : Z := 17.
Definition InconsistentName : Z := 18.

(** The dynamic type of a [Variable.Value] (a Go [interface{}]): the choice
    types registered under "val" by [Asn1Context], and the [nil] interface. *)
Inductive Value : Type :=
| VNil
| VNull
| VInt (n : Z)
| VString (s : string)
| VOid (oid : Oid)
| VIpAddress (a b c d : N)
| VCounter32 (n : N)
| VUnsigned32 (n : N)
| VTimeTicks (n : N)
| VOpaque (bytes : list Byte.byte)
| VCounter64 (n : N)
| VNoSuchObject
| VNoSuchInstance
| VEndOfMibView.

(** Variable represents an entry of the variable bindings ([Variable] is
    a reserved word here, hence [VarBind]). *)
Record VarBind : Type := mkVariable {
  Name : Oid;
  Value_ : Value
}.

(** Pdu is the generic type of the request and response PDUs; the named
    types [GetRequestPdu], [GetResponsePdu], ... are all [Pdu], and the
    conversions between them copy the struct. *)
Record Pdu : Type := mkPdu {
  Id : Z;
  ErrorStatus : Z;
  ErrorIndex : Z;
  Variables : list VarBind
}.

Record BulkPdu : Type := mkBulkPdu {
  BulkId : Z;
  NonRepeaters : Z;
  MaxRepetitions : Z;
  BulkVariables : list VarBind
}.

Record V1Trap : Type := mkV1Trap {
  Enterprise : Oid;
  AgentAddr : N * N * N * N;
  GenericTrap : Z;
  SpecificTrap : Z;
  Timestamp : N;
  TrapVariables : list VarBind
}.

(** The dynamic type of [Message.Pdu]: the choice types registered under
    "pdu" by [Asn1Context], tags 0 to 7. *)
Inductive PduVariant : Type :=
| GetRequestPdu (pdu : Pdu)
| GetNextRequestPdu (pdu : Pdu)
| GetResponsePdu (pdu : Pdu)
| SetRequestPdu (pdu : Pdu)
| SnmpV1TrapPdu (trap : V1Trap)
| GetBulkRequestPdu (pdu : BulkPdu)
| InformRequestPdu (pdu : Pdu)
| SnmpV2TrapPdu (pdu : Pdu).

(** Message is the top level element of the SNMP protocol. *)
Record Message : Type := mkMessage {
  Version : Z;
  Community : string;
  Pdu_ : PduVariant
}.

(** ** Errors *)

(** Error is the error type that a Getter or a Setter can return to choose
    the status of the response. *)
Record Error : Type := mkError {
  Status : Z;
  Message_ : string
}.

(** A non-nil value of Go's [error] interface: either the struct [Error]
    (the only type the assertion [err.(Error)] accepts) or any other error
    value, such as those of [fmt.Errorf]. *)
Inductive error : Type :=
| IsError (e : Error)
| OtherError (msg : string).

(** [Errorf] creates a new Error; the text is kept as the format string,
    its arguments are not rendered. *)
Definition Errorf (status : Z) (format : string) : Error :=
  {| Status := status; Message_ := format |}.

Definition fmt_Errorf (format : string) : error := OtherError format.

(** ** The agent *)

(** What the processor does to the outside: a registry lookup, a call of a
    managed object's getter, a call of its setter. *)
Inductive Event : Type :=
| EvLookup (name : Oid) (next : bool)
| EvGet (name : Oid)
| EvSet (name : Oid) (value : Value).

Section Agent.

(** The state the accessor closures capture. *)
Context {World : Type}.

(** Getter is a function called to return a managed object value. *)
Definition Getter : Type := Oid -> World -> (Value * option error) * World.

(** Setter is a function called to set a managed object value. *)
Definition Setter : Type := Oid -> Value -> World -> option error * World.

(** managedObject represents a registered managed object (its field
    [typ] is always nil and never read). *)
Record managedObject : Type := mkManagedObject {
  oid : Oid;
  get : Getter;
  set : Setter
}.

(** Agent is a transport independent engine to process SNMP requests.
    The logger and the asn1 context are left out: the log is write-only
    and the codec is a parameter of [ProcessDatagram]. *)
Record Agent : Type := mkAgent {
  handlers : list managedObject;
  public : string;
  private : string
}.

Definition NewAgent : Agent :=
  {| handlers := []; public := "public"; private := "private" |}.

Definition SetCommunities (a : Agent) (public' private' : string) : Agent :=
  {| handlers := handlers a; public := public'; private := private' |}.

(** checkCommunity handles "authentication" and acls: the named results
    [(rw, err)], [rw] false unless set. *)
Definition checkCommunity (a : Agent) (community : string)
  : bool * option error :=
  if negb (community =? public a)%string && negb (community =? private a)%string
  then (false, Some (fmt_Errorf "invalid community %s"))
  else
    let rw := if (community =? private a)%string then true else false in
    (rw, None).

(** The loop of [getManagedObject] over the handlers, in slice order. *)
Fixpoint getManagedObject_loop (hs : list managedObject) (name : Oid)
    (next : bool) : option managedObject :=
  match hs with
  | [] => None
  | h :: hs' =>
      let cmp := Cmp name (oid h) in
      if (negb next && (cmp =? 0)) || (next && (cmp <? 0)) then Some h
      else if negb next && (cmp <? 0) then None
      else getManagedObject_loop hs' name next
  end.

(** getManagedObject returns the exact managed object for the given OID
    when next=false or the next object when next=true. *)
Definition getManagedObject (a : Agent) (name : Oid) (next : bool)
  : option managedObject :=
  getManagedObject_loop (handlers a) name next.

(** [sortableManagedObjects.Less]. *)
Definition Less (x y : managedObject) : bool := Cmp (oid x) (oid y) <? 0.

(** [sort.Sort] of the standard library orders the slice by [Less]; it
    promises a sorted permutation and no stability.  It is modelled by
    insertion from the right; [sort_Sort_unique] below shows that on
    handlers with distinct OIDs no other outcome is possible. *)
Fixpoint sort_insert (h : managedObject) (hs : list managedObject)
  : list managedObject :=
  match hs with
  | [] => [h]
  | x :: hs' => if Less h x then h :: x :: hs' else x :: sort_insert h hs'
  end.

Fixpoint sort_Sort (hs : list managedObject) : list managedObject :=
  match hs with
  | [] => []
  | h :: hs' => sort_insert h (sort_Sort hs')
  end.

(** The setter installed when none is given. *)
Definition notWritableSetter : Setter :=
  fun _ _ w => (Some (IsError (Errorf NotWritable "OID %s is not writable")), w).

(** AddRwManagedObject registers a read-write managed object; the agent
    is returned next to the error, unchanged when the call fails. *)
Definition AddRwManagedObject (a : Agent) (name : Oid)
    (getter : option Getter) (setter : option Setter)
  : Agent * option error :=
  match getter with
  | None =>
      (a, Some (fmt_Errorf "A managed object should have at least a getter."))
  | Some getter' =>
      let setter' :=
        match setter with
        | None => notWritableSetter
        | Some s => s
        end in
      match getManagedObject a name false with
      | Some _ => (a, Some (fmt_Errorf "OID %d is already registered."))
      | None =>
          let h := {| oid := name; get := getter'; set := setter' |} in
          ({| handlers := sort_Sort (handlers a ++ [h]);
              public := public a;
              private := private a |}, None)
      end
  end.

(** AddRoManagedObject registers a read-only managed object. *)
Definition AddRoManagedObject (a : Agent) (name : Oid)
    (getter : option Getter) : Agent * option error :=
  AddRwManagedObject a name getter None.

(** *** Effects: the world and the call trace *)

Record Env : Type := mkEnv {
  world : World;
  calls : list Event
}.

Definition M (A : Type) : Type := Env -> A * Env.

Definition ret {A : Type} (x : A) : M A := fun e => (x, e).

Definition bind {A B : Type} (m : M A) (k : A -> M B) : M B :=
  fun e => let '(x, e') := m e in k x e'.

Definition emit (ev : Event) : M unit :=
  fun e => (tt, {| world := world e; calls := calls e ++ [ev] |}).

Definition inWorld {A : Type} (f : World -> A * World) : M A :=
  fun e => let '(x, w') := f (world e) in
           (x, {| world := w'; calls := calls e |}).

End Agent.

Arguments Getter : clear implicits.
Arguments Setter : clear implicits.
Arguments managedObject : clear implicits.
Arguments Agent : clear implicits.
Arguments Env : clear implicits.
Arguments M : clear implicits.

Notation "x <- m ;; k" := (bind m (fun x => k))
  (at level 61, m at next level, right associativity).
Notation "m ;;; k" := (bind m (fun _ => k))
  (at level 61, right associativity).

Section Processing.

Context {World : Type}.

(** [res.ErrorIndex = index; res.ErrorStatus = status] on a PDU value. *)
Definition withError (res : Pdu) (index status : Z) : Pdu :=
  {| Id := Id res;
     ErrorStatus := status;
     ErrorIndex := index;
     Variables := Variables res |}.

(** [res.Variables = variables] on a PDU value. *)
Definition withVariables (res : Pdu) (variables : list VarBind) : Pdu :=
  {| Id := Id res;
     ErrorStatus := ErrorStatus res;
     ErrorIndex := ErrorIndex res;
     Variables := variables |}.

(** The call [h.set(h.oid, v.Value)]: the value stays the nil interface. *)
Definition callSet (h : managedObject World) (value : Value)
  : M World (Value * option error) :=
  emit (EvSet (oid h) value) ;;;
  err <- inWorld (h.(set) (oid h) value) ;;
  ret (VNil, err).

(** The call [h.get(h.oid)]. *)
Definition callGet (h : managedObject World)
  : M World (Value * option error) :=
  emit (EvGet (oid h)) ;;;
  inWorld (h.(get) (oid h)).

(** The status a failed accessor gives the response:
    [if e, ok := err.(Error); ok { e.Status } else { GenErr }]. *)
Definition statusOf (err : error) : Z :=
  match err with
  | IsError e => Status e
  | OtherError _ => GenErr
  end.

(** The loop of [processPdu]: [i] is the index of the head of [vs] in
    [pdu.Variables], [variables] the values kept so far. *)
Fixpoint processPdu_loop (a : Agent World) (next set : bool) (res : Pdu)
    (i : Z) (vs : list VarBind) (variables : list VarBind)
  : M World Pdu :=
  match vs with
  | [] =>
      if negb set then ret (withVariables res variables) else ret res
  | v :: vs' =>
      emit (EvLookup (Name v) next) ;;;
      match getManagedObject a (Name v) next with
      | None => ret (withError res (i + 1) NoSuchName)
      | Some h =>
          r <- (if set then callSet h (Value_ v) else callGet h) ;;
          let '(value, err) := r in
          match err with
          | Some e => ret (withError res (i + 1) (statusOf e))
          | None =>
              processPdu_loop a next set res (i + 1) vs'
                (if negb set
                 then variables ++ [mkVariable (oid h) value]
                 else variables)
          end
      end
  end.

(** processPdu handles SNMPv1 requests with exception of SnmpV1TrapPdu. *)
Definition processPdu (a : Agent World) (pdu : Pdu) (next set : bool)
  : M World Pdu :=
  processPdu_loop a next set pdu 0 (Variables pdu) [].

(** The PDU of a request the agent services: the first three cases of
    the type switch in [ProcessMessage]. *)
Definition requestPdu (p : PduVariant) : option Pdu :=
  match p with
  | GetRequestPdu pdu | GetNextRequestPdu pdu | SetRequestPdu pdu => Some pdu
  | _ => None
  end.

(** The tail of [ProcessMessage]: the request copied, its PDU replaced. *)
Definition respond (request : Message) (res : Pdu) : Message :=
  {| Version := Version request;
     Community := Community request;
     Pdu_ := GetResponsePdu res |}.

(** ProcessMessage handles a SNMP Message.  Of the results
    [(response, err)] exactly one is non-nil on every path, so the result
    is a sum. *)
Definition ProcessMessage (a : Agent World) (request : Message)
  : M World (Message + error) :=
  if negb (Version request =? 0)
  then ret (inr (fmt_Errorf "invalid SNMP version %d"))
  else
    let '(rw, err) := checkCommunity a (Community request) in
    match err with
    | Some e => ret (inr e)
    | None =>
        match Pdu_ request with
        | GetRequestPdu pdu =>
            res <- processPdu a pdu false false ;;
            ret (inl (respond request res))
        | GetNextRequestPdu pdu =>
            res <- processPdu a pdu true false ;;
            ret (inl (respond request res))
        | SetRequestPdu pdu =>
            if rw
            then res <- processPdu a pdu false true ;;
                 ret (inl (respond request res))
            else ret (inl (respond request (withError pdu 1 NoSuchName)))
        | _ => ret (inr (fmt_Errorf "PDU not supported: %T"))
        end
    end.

(** The external codec of an [asn1.Context]: [Decode] gives the message
    and the bytes left over, or an error; [Encode] the bytes or an error. *)
Context (Decode : list Byte.byte -> (Message * list Byte.byte) + error).
Context (Encode : Message -> list Byte.byte + error).

(** ProcessDatagram handles a binary SNMP message: the response bytes, or
    an error and no bytes. *)
Definition ProcessDatagram (a : Agent World) (requestBytes : list Byte.byte)
  : M World (list Byte.byte + error) :=
  match Decode requestBytes with
  | inr e => ret (inr e)
  | inl (request, remaining) =>
      if (0 <? Z.of_nat (List.length remaining))
      then ret (inr (fmt_Errorf "%d remaining bytes."))
      else
        r <- ProcessMessage a request ;;
        match r with
        | inr e => ret (inr e)
        | inl response => ret (Encode response)
        end
  end.

(** [decodeMessage] of [asn1.go]. *)
Definition decodeMessage (data : list Byte.byte) : Message + error :=
  match Decode data with
  | inr e => inr e
  | inl (msg, remaining) =>
      if (0 <? Z.of_nat (List.length remaining))
      then inr (fmt_Errorf "%d remaining bytes.")
      else inl msg
  end.

(** [encodeMessage] of [asn1.go]. *)
Definition encodeMessage (msg : Message) : list Byte.byte + error :=
  Encode msg.

End Processing.

(** ** The agent revision without [ProcessMessage]

    In this revision of the agent file [ProcessDatagram] decodes with
    [decodeMessage], checks version and community and dispatches the PDU
    itself; registry, community check and [processPdu] are the same. *)

Module DatagramOnly.
Section Processing.

Context {World : Type}.
Context (Decode : list Byte.byte -> (Message * list Byte.byte) + error).
Context (Encode : Message -> list Byte.byte + error).

Definition ProcessDatagram (a : Agent World) (requestBytes : list Byte.byte)
  : M World (list Byte.byte + error) :=
  match decodeMessage Decode requestBytes with
  | inr e => ret (inr e)
  | inl msg =>
      if negb (Version msg =? 0) && negb (Version msg =? 1)
      then ret (inr (fmt_Errorf "invalid SNMP version %d"))
      else
        let '(rw, err) := checkCommunity a (Community msg) in
        match err with
        | Some e => ret (inr e)
        | None =>
            match Pdu_ msg with
            | GetRequestPdu pdu =>
                res <- processPdu a pdu false false ;;
                ret (encodeMessage Encode (respond msg res))
            | GetNextRequestPdu pdu =>
                res <- processPdu a pdu true false ;;
                ret (encodeMessage Encode (respond msg res))
            | SetRequestPdu pdu =>
                if rw
                then res <- processPdu a pdu false true ;;
                     ret (encodeMessage Encode (respond msg res))
                else ret (encodeMessage Encode
                            (respond msg (withError pdu 1 NoSuchName)))
            | _ => ret (inr (fmt_Errorf "PDU not supported: %T"))
            end
        end
  end.

End Processing.
End DatagramOnly.

(** ** Agent setup: the calls an operator makes before serving *)

Section Setup.

Context {World : Type}.

Inductive SetupCall : Type :=
| CallSetCommunities (public' private' : string)
| CallAddRo (name : Oid) (getter : option (Getter World))
| CallAddRw (name : Oid) (getter : option (Getter World))
    (setter : option (Setter World)).

(** One call on the agent; the returned error is dropped, as in the
    package's example and tests. *)
Definition applyCall (a : Agent World) (c : SetupCall) : Agent World :=
  match c with
  | CallSetCommunities pub priv => SetCommunities a pub priv
  | CallAddRo name getter => fst (AddRoManagedObject a name getter)
  | CallAddRw name getter setter =>
      fst (AddRwManagedObject a name getter setter)
  end.

(** The agent after [NewAgent()] and the calls, in order. *)
Definition setup (cs : list SetupCall) : Agent World :=
  fold_left applyCall cs NewAgent.

(** The OID a registration call names, when it supplies a getter. *)
Definition offers (c : SetupCall) : option Oid :=
  match c with
  | CallSetCommunities _ _ => None
  | CallAddRo name (Some _) => Some name
  | CallAddRo _ None => None
  | CallAddRw name (Some _) _ => Some name
  | CallAddRw _ None _ => None
  end.

(** The OIDs registered by the calls. *)
Fixpoint registeredOids (cs : list SetupCall) : list Oid :=
  match cs with
  | [] => []
  | c :: cs' =>
      match offers c with
      | Some name => name :: registeredOids cs'
      | None => registeredOids cs'
      end
  end.

(** A registration call that supplies a getter and no setter. *)
Definition readOnlyCall (c : SetupCall) (name : Oid) : Prop :=
  (exists g, c = CallAddRo name (Some g)) \/
  (exists g, c = CallAddRw name (Some g) None).

(** Ascending order of a handler slice: every entry is below all the
    entries after it. *)
Definition ascending (hs : list (managedObject World)) : Prop :=
  StronglySorted (fun x y => Cmp (oid x) (oid y) < 0) hs.

(** *** What a run of the bindings amounts to *)

(** The accessor call of one binding on the resolved object, as a
    function of the world alone. *)
Definition access (h : managedObject World) (isSet : bool) (v : VarBind)
    (w : World) : (Value * option error) * World :=
  if isSet
  then let '(err, w') := h.(set) (oid h) (Value_ v) w in ((VNil, err), w')
  else h.(get) (oid h) w.

(** Every binding of the list resolves and its accessor succeeds, one
    after the other from world [w]; [out] pairs each resolved OID with
    the value its accessor returned. *)
Inductive allSucceed (a : Agent World) (next isSet : bool)
  : World -> list VarBind -> list VarBind -> World -> Prop :=
| allSucceed_nil : forall w, allSucceed a next isSet w [] [] w
| allSucceed_cons : forall w v vs h value w1 out w2,
    getManagedObject a (Name v) next = Some h ->
    access h isSet v w = ((value, None), w1) ->
    allSucceed a next isSet w1 vs out w2 ->
    allSucceed a next isSet w (v :: vs)
      (mkVariable (oid h) value :: out) w2.

(** The binding fails in world [w], with the status the failure stands
    for: no entry resolves; the accessor returns an [Error]; the accessor
    returns another error. *)
Inductive failsWith (a : Agent World) (next isSet : bool) (w : World)
    (v : VarBind) : Z -> Prop :=
| fails_unresolved :
    getManagedObject a (Name v) next = None ->
    failsWith a next isSet w v NoSuchName
| fails_typed : forall h value e w',
    getManagedObject a (Name v) next = Some h ->
    access h isSet v w = ((value, Some (IsError e)), w') ->
    failsWith a next isSet w v (Status e)
| fails_untyped : forall h value msg w',
    getManagedObject a (Name v) next = Some h ->
    access h isSet v w = ((value, Some (OtherError msg)), w') ->
    failsWith a next isSet w v GenErr.

End Setup.

Arguments SetupCall : clear implicits.

(** ** The package's example agent *)

Module Example.

(** The captured variable [name] of the example. *)
Definition World : Type := string.

Definition sysUpTime : Oid := [1; 3; 6; 1; 2; 1; 1; 3; 0]%N.
Definition sysName : Oid := [1; 3; 6; 1; 2; 1; 1; 5; 0]%N.
Definition sysUpTimeNode : Oid := [1; 3; 6; 1; 2; 1; 1; 3]%N.
Definition sysContact : Oid := [1; 3; 6; 1; 2; 1; 1; 4; 0]%N.

(** The getter of the test: the uptime is 123. *)
Definition getUpTime : Getter World := fun _ w => ((VInt 123, None), w).

Definition getName : Getter World := fun _ w => ((VString w, None), w).

Definition setName : Setter World :=
  fun _ value w =>
    match value with
    | VString s => (None, s)
    | _ => (Some (IsError (Errorf BadValue "invalid type")), w)
    end.

(** A getter that fails without a status. *)
Definition getBroken : Getter World :=
  fun _ w => ((VNil, Some (fmt_Errorf "not available")), w).

Definition setupCalls : list (SetupCall World) :=
  [ CallSetCommunities "publ" "priv";
    CallAddRo sysUpTime (Some getUpTime);
    CallAddRw sysName (Some getName) (Some setName) ].

Definition agent : Agent World := setup setupCalls.

Definition start : Env World := {| world := "example"; calls := [] |}.

Definition binding (name : Oid) : VarBind := mkVariable name VNull.

(** An agent with an object whose getter fails without a status. *)
Definition brokenAgent : Agent World :=
  setup [ CallAddRo sysUpTime (Some getUpTime);
          CallAddRo sysContact (Some getBroken) ].

(** Requests: a Get of three objects, the second unknown to [agent]; a
    Get of two known objects; a Set, under either community; a message of
    another protocol version. *)
Definition getThree : Pdu :=
  {| Id := 1949582188; ErrorStatus := 0; ErrorIndex := 0;
     Variables := [binding sysUpTime; binding sysContact; binding sysName] |}.

Definition getTwo : Pdu :=
  {| Id := 1949582188; ErrorStatus := 0; ErrorIndex := 0;
     Variables := [binding sysUpTime; binding sysName] |}.

Definition setTwo : Pdu :=
  {| Id := 1949582188; ErrorStatus := 0; ErrorIndex := 0;
     Variables := [mkVariable sysName (VString "renamed");
                   mkVariable sysUpTime (VInt 0)] |}.

Definition setAsReader : Message :=
  {| Version := 0; Community := "publ"; Pdu_ := SetRequestPdu setTwo |}.

Definition setAsWriter : Message :=
  {| Version := 0; Community := "priv"; Pdu_ := SetRequestPdu setTwo |}.

Definition getAsReader : Message :=
  {| Version := 0; Community := "publ"; Pdu_ := GetRequestPdu getThree |}.

Definition getVersion3 : Message :=
  {| Version := 3; Community := "publ"; Pdu_ := GetRequestPdu getTwo |}.

(** A Get whose error fields are not zero on arrival. *)
Definition getMarked : Pdu :=
  {| Id := 1949582188; ErrorStatus := 5; ErrorIndex := 3;
     Variables := [binding sysUpTime] |}.

(** A stand-in codec: every datagram decodes to [getVersion3] with no
    bytes left over; every message encodes to no bytes. *)
Definition Decode (_ : list Byte.byte)
  : (Message * list Byte.byte) + error := inl (getVersion3, []).

Definition Encode (_ : Message) : list Byte.byte + error := inl [].

End Example.

(** ** Further parts of the package *)

(** *** The sort interface of the handler slice *)

Section Sortable.

Context {World : Type}.

(** [sortableManagedObjects.Len]. *)
Definition Len (h : list (managedObject World)) : Z :=
  Z.of_nat (List.length h).

(** The index expression [h[i]]; [None] is the run-time panic of an index
    out of range. *)
Definition index (h : list (managedObject World)) (i : Z)
  : option (managedObject World) :=
  if (0 <=? i) && (i <? Len h) then nth_error h (Z.to_nat i) else None.

(** The assignment [h[i] = x] on an index in range. *)
Fixpoint assign (h : list (managedObject World)) (i : nat)
    (x : managedObject World) : list (managedObject World) :=
  match h, i with
  | [], _ => []
  | _ :: h', O => x :: h'
  | y :: h', S i' => y :: assign h' i' x
  end.

(** [sortableManagedObjects.Swap]: [h[i], h[j] = h[j], h[i]].  Both index
    expressions are evaluated first, then [h[i]] and [h[j]] are assigned in
    that order. *)
Definition Swap (h : list (managedObject World)) (i j : Z)
  : option (list (managedObject World)) :=
  match index h j, index h i with
  | Some hj, Some hi =>
      Some (assign (assign h (Z.to_nat i) hj) (Z.to_nat j) hi)
  | _, _ => None
  end.

(** [sortableManagedObjects.Less] on two positions of the slice. *)
Definition LessAt (h : list (managedObject World)) (i j : Z) : option bool :=
  match index h i, index h j with
  | Some hi, Some hj => Some (Cmp (oid hi) (oid hj) <? 0)
  | _, _ => None
  end.

End Sortable.

(** *** What the calls of a setup register *)

Section Entries.

Context {World : Type}.

(** The entry a registration call stores when it succeeds:
    [managedObject{oid, nil, getter, setter}], the setter replaced by the
    not-writable one when nil. *)
Definition entryOf (c : SetupCall World) : option (managedObject World) :=
  match c with
  | CallSetCommunities _ _ => None
  | CallAddRo name (Some g) =>
      Some {| oid := name; get := g; set := notWritableSetter |}
  | CallAddRo _ None => None
  | CallAddRw name (Some g) setter =>
      Some {| oid := name; get := g;
              set := match setter with
                     | None => notWritableSetter
                     | Some s => s
                     end |}
  | CallAddRw _ None _ => None
  end.

Fixpoint entries (cs : list (SetupCall World)) : list (managedObject World) :=
  match cs with
  | [] => []
  | c :: cs' =>
      match entryOf c with
      | Some h => h :: entries cs'
      | None => entries cs'
      end
  end.

(** *** The calls a run of bindings makes *)

(** The calls for one binding that resolves: the lookup of the requested
    name, then the accessor of the resolved object, called on the resolved
    OID ([kept] carries that OID). *)
Definition bindingTrace (next isSet : bool) (v kept : VarBind) : list Event :=
  [ EvLookup (Name v) next;
    if isSet then EvSet (Name kept) (Value_ v) else EvGet (Name kept) ].

Fixpoint successTrace (next isSet : bool) (vs out : list VarBind)
  : list Event :=
  match vs, out with
  | v :: vs', kept :: out' =>
      bindingTrace next isSet v kept ++ successTrace next isSet vs' out'
  | _, _ => []
  end.

Definition isSetCall (ev : Event) : bool :=
  match ev with
  | EvSet _ _ => true
  | _ => false
  end.

Definition isGetCall (ev : Event) : bool :=
  match ev with
  | EvGet _ => true
  | _ => false
  end.

End Entries.

(** *** The text of an IP address ([asn1.go]) *)

(** IpAddress is a IPv4 address: [[4]byte]. *)
Definition IpAddress : Type := Byte.byte * Byte.byte * Byte.byte * Byte.byte.

(** The verb [%d] of [fmt.Sprintf] on a byte: its decimal digits. *)
Definition fmt_d (b : Byte.byte) : string :=
  NilZero.string_of_uint (N.to_uint (Byte.to_N b)).

(** A text without the separator ["."], as the digits of [%d] are. *)
Fixpoint noDot (s : string) : bool :=
  match s with
  | EmptyString => true
  | String c s' => negb (Ascii.eqb c ".") && noDot s'
  end.

(** [IpAddress.String]: [fmt.Sprintf("%d.%d.%d.%d", ip[0], ip[1], ip[2],
    ip[3])]. *)
Definition IpAddress_String (ip : IpAddress) : string :=
  let '(a, b, c, d) := ip in
  (fmt_d a ++ "." ++ fmt_d b ++ "." ++ fmt_d c ++ "." ++ fmt_d d)%string.

(** *** More of the example *)

Module Example2.

(** A stand-in codec whose every datagram is the three-object Get of the
    example under the read community. *)
Definition Decode (_ : list Byte.byte)
  : (Message * list Byte.byte) + error := inl (Example.getAsReader, []).

Definition Encode (_ : Message) : list Byte.byte + error := inl [].

(** The same Get of two objects sent as GetNext from the nodes above. *)
Definition nextTwo : Pdu :=
  {| Id := 1949582188; ErrorStatus := 0; ErrorIndex := 0;
     Variables := [Example.binding Example.sysUpTimeNode;
                   Example.binding Example.sysContact] |}.

Definition informAsReader : Message :=
  {| Version := 0; Community := "publ";
     Pdu_ := InformRequestPdu Example.getTwo |}.

(** An agent whose two communities are the same string, as in the
    community test. *)
Definition secretAgent : Agent Example.World :=
  setup [ CallSetCommunities "secret" "secret";
          CallAddRw Example.sysName (Some Example.getName)
            (Some Example.setName) ].

Definition setAsSecret : Message :=
  {| Version := 0; Community := "secret";
     Pdu_ := SetRequestPdu Example.setTwo |}.

(** A datagram that holds the Get of the example followed by one byte too
    many, and one that holds a version 1 message. *)
Definition DecodeTrailing (_ : list Byte.byte)
  : (Message * list Byte.byte) + error :=
  inl (Example.getAsReader, [Byte.x00]).

Definition getVersion1 : Message :=
  {| Version := 1; Community := "publ";
     Pdu_ := GetRequestPdu Example.getTwo |}.

Definition DecodeVersion1 (_ : list Byte.byte)
  : (Message * list Byte.byte) + error := inl (getVersion1, []).

(** The Get of the example cut after its unknown object. *)
Definition getFirstTwo : Pdu :=
  {| Id := 1949582188; ErrorStatus := 0; ErrorIndex := 0;
     Variables := [Example.binding Example.sysUpTime;
                   Example.binding Example.sysContact] |}.

(** The setup calls of the example in another order. *)
Definition reorderedCalls : list (SetupCall Example.World) :=
  [ CallAddRw Example.sysName (Some Example.getName) (Some Example.setName);
    CallSetCommunities "publ" "priv";
    CallAddRo Example.sysUpTime (Some Example.getUpTime) ].

End Example2.

(** * Properties *)

(** ** The comparison contract of OIDs *)

Lemma Cmp_range (x y : Oid) : Cmp x y = -1 \/ Cmp x y = 0 \/ Cmp x y = 1.
Proof.
  revert y; induction x as [|n x IH]; intros [|m y]; simpl; auto.
  destruct (N.eqb n m); [apply IH|].
  destruct (N.ltb n m); auto.
Qed.

Lemma Cmp_refl (x : Oid) : Cmp x x = 0.
Proof.
  induction x as [|n x IH]; simpl; [reflexivity|].
  now rewrite N.eqb_refl.
Qed.

Lemma Cmp_eq (x y : Oid) : Cmp x y = 0 <-> x = y.
Proof.
  split; [|intros ->; apply Cmp_refl].
  revert y; induction x as [|n x IH]; intros [|m y]; simpl; try discriminate; auto.
  destruct (N.eqb_spec n m) as [->|Hne].
  - intros H; f_equal; auto.
  - destruct (N.ltb n m); discriminate.
Qed.

Lemma Cmp_flip (x y : Oid) : Cmp y x = - Cmp x y.
Proof.
  revert y; induction x as [|n x IH]; intros [|m y]; simpl; auto.
  destruct (N.eqb_spec n m) as [->|Hne].
  - rewrite N.eqb_refl; apply IH.
  - destruct (N.eqb_spec m n) as [->|_]; [congruence|].
    destruct (N.ltb_spec n m), (N.ltb_spec m n); try reflexivity; lia.
Qed.

Lemma Cmp_trans (x y z : Oid) : Cmp x y < 0 -> Cmp y z < 0 -> Cmp x z < 0.
Proof.
  revert y z; induction x as [|n x IH]; intros [|m y] [|k z]; simpl; try lia.
  destruct (N.eqb_spec n m) as [->|Hnm].
  - destruct (N.eqb_spec m k) as [->|Hmk]; [apply IH|].
    intros _; destruct (N.ltb m k); lia.
  - destruct (N.ltb_spec n m) as [Hlt|]; [intros _|lia].
    destruct (N.eqb_spec m k) as [->|Hmk].
    + intros _. destruct (N.eqb_spec n k); [lia|].
      destruct (N.ltb_spec n k); lia.
    + destruct (N.ltb_spec m k) as [Hlt'|]; [intros _|lia].
      destruct (N.eqb_spec n k); [lia|].
      destruct (N.ltb_spec n k); lia.
Qed.

Lemma Cmp_irrefl (x : Oid) : ~ Cmp x x < 0.
Proof. rewrite Cmp_refl; lia. Qed.

Lemma Cmp_le_lt_trans (x y z : Oid) :
  Cmp x y <= 0 -> Cmp y z < 0 -> Cmp x z < 0.
Proof.
  intros Hxy Hyz.
  destruct (Z.eq_dec (Cmp x y) 0) as [E|E].
  - apply Cmp_eq in E; now subst.
  - apply Cmp_trans with y; lia.
Qed.

(** ** The registry *)

Section Registry.

Context {World : Type}.
Implicit Types (h x : managedObject World) (hs : list (managedObject World)).
Implicit Types (a : Agent World) (cs : list (SetupCall World)).

Lemma ascending_inv x hs :
  ascending (x :: hs) ->
  ascending hs /\ forall y, In y hs -> Cmp (oid x) (oid y) < 0.
Proof.
  intros H; inversion H as [|? ? Hs Hf]; subst; split; [exact Hs|].
  now apply Forall_forall.
Qed.

Lemma ascending_cons x hs :
  ascending hs -> (forall y, In y hs -> Cmp (oid x) (oid y) < 0) ->
  ascending (x :: hs).
Proof.
  intros Hs Hf; constructor; [exact Hs|now apply Forall_forall].
Qed.

Lemma sort_insert_perm h hs : Permutation (sort_insert h hs) (h :: hs).
Proof.
  induction hs as [|x hs IH]; simpl; [reflexivity|].
  destruct (Less h x); [reflexivity|].
  rewrite IH; apply perm_swap.
Qed.

Lemma sort_Sort_perm hs : Permutation (sort_Sort hs) hs.
Proof.
  induction hs as [|x hs IH]; simpl; [reflexivity|].
  rewrite sort_insert_perm; now constructor.
Qed.

Lemma sort_insert_ascending h hs :
  ascending hs -> ~ In (oid h) (map oid hs) -> ascending (sort_insert h hs).
Proof.
  induction hs as [|x hs IH]; simpl; intros Hs Hn.
  - apply ascending_cons; [constructor|intros ? []].
  - apply ascending_inv in Hs as [Hs Hx].
    unfold Less; destruct (Z.ltb_spec (Cmp (oid h) (oid x)) 0) as [Hlt|Hge].
    + apply ascending_cons.
      * now apply ascending_cons.
      * intros y [<-|Hy]; [exact Hlt|].
        apply Cmp_trans with (oid x); auto.
    + assert (Hxh : Cmp (oid x) (oid h) < 0).
      { rewrite (Cmp_flip (oid h) (oid x)).
        assert (Cmp (oid h) (oid x) <> 0)
          by (rewrite Cmp_eq; intros E; apply Hn; left; now symmetry).
        lia. }
      apply ascending_cons; [apply IH; tauto|].
      intros y Hy.
      apply (Permutation_in _ (sort_insert_perm h hs)) in Hy.
      destruct Hy as [<-|Hy]; auto.
Qed.

Lemma sort_Sort_ascending hs :
  NoDup (map oid hs) -> ascending (sort_Sort hs).
Proof.
  induction hs as [|x hs IH]; simpl; intros Hnd; [constructor|].
  inversion Hnd as [|? ? Hn Hnd']; subst.
  apply sort_insert_ascending; [auto|].
  intros Hin; apply Hn.
  apply (Permutation_in _ (Permutation_map oid (sort_Sort_perm hs))), Hin.
Qed.

Lemma ascending_NoDup hs : ascending hs -> NoDup (map oid hs).
Proof.
  induction hs as [|x hs IH]; simpl; intros Hs; [constructor|].
  apply ascending_inv in Hs as [Hs Hx].
  constructor; [|auto].
  intros Hin; apply in_map_iff in Hin as (y & Ey & Hy).
  specialize (Hx y Hy); rewrite Ey in Hx; now apply Cmp_irrefl in Hx.
Qed.

(** Two ascending slices with the same entries are the same slice. *)
Lemma ascending_perm_eq hs hs' :
  ascending hs -> ascending hs' -> Permutation hs hs' -> hs = hs'.
Proof.
  revert hs'; induction hs as [|x hs IH]; intros [|y hs'] Hs Hs' Hp.
  - reflexivity.
  - now apply Permutation_nil in Hp.
  - symmetry in Hp; now apply Permutation_nil in Hp.
  - apply ascending_inv in Hs as [Hs Hx].
    apply ascending_inv in Hs' as [Hs' Hy].
    assert (x = y) as ->.
    { assert (Hxin : In x (y :: hs'))
        by (apply (Permutation_in _ Hp); now left).
      assert (Hyin : In y (x :: hs))
        by (apply (Permutation_in _ (Permutation_sym Hp)); now left).
      destruct Hxin as [->|Hxin]; [reflexivity|].
      destruct Hyin as [->|Hyin]; [reflexivity|].
      exfalso; apply (Cmp_irrefl (oid x)).
      apply Cmp_trans with (oid y); auto. }
    f_equal; apply IH; auto.
    now apply Permutation_cons_inv in Hp.
Qed.

(** Whatever [sort.Sort] does inside, on handlers with distinct OIDs its
    outcome, a sorted permutation, is the one of [sort_Sort]. *)
Lemma sort_Sort_unique hs sorted :
  NoDup (map oid hs) -> Permutation sorted hs -> ascending sorted ->
  sorted = sort_Sort hs.
Proof.
  intros Hnd Hp Hs.
  apply ascending_perm_eq; [exact Hs|now apply sort_Sort_ascending|].
  rewrite Hp; symmetry; apply sort_Sort_perm.
Qed.

End Registry.

Section Lookup.

Context {World : Type}.
Implicit Types (h x : managedObject World) (hs : list (managedObject World)).
Implicit Types (a : Agent World) (cs : list (SetupCall World)).

Lemma loop_exact_cons x hs q :
  getManagedObject_loop (x :: hs) q false =
  if Cmp q (oid x) =? 0 then Some x
  else if Cmp q (oid x) <? 0 then None
  else getManagedObject_loop hs q false.
Proof. simpl; now rewrite orb_false_r. Qed.

Lemma loop_next_cons x hs q :
  getManagedObject_loop (x :: hs) q true =
  if Cmp q (oid x) <? 0 then Some x else getManagedObject_loop hs q true.
Proof. reflexivity. Qed.

Lemma exact_found hs q h :
  getManagedObject_loop hs q false = Some h -> In h hs /\ oid h = q.
Proof.
  induction hs as [|x hs IH]; [discriminate|].
  rewrite loop_exact_cons.
  destruct (Z.eqb_spec (Cmp q (oid x)) 0) as [E|_].
  - intros [= ->]; apply Cmp_eq in E; split; [now left|now symmetry].
  - destruct (Cmp q (oid x) <? 0); [discriminate|].
    intros H; apply IH in H as [? ?]; split; [now right|assumption].
Qed.

Lemma exact_complete hs q :
  ascending hs -> In q (map oid hs) ->
  exists h, getManagedObject_loop hs q false = Some h.
Proof.
  induction hs as [|x hs IH]; intros Hs Hin; [destruct Hin|].
  apply ascending_inv in Hs as [Hs Hx].
  rewrite loop_exact_cons.
  destruct (Z.eqb_spec (Cmp q (oid x)) 0) as [E|Hne]; [now exists x|].
  destruct Hin as [E|Hin]; [rewrite <- E, Cmp_refl in Hne; lia|].
  destruct (Z.ltb_spec (Cmp q (oid x)) 0) as [Hlt|_]; [|now apply IH].
  apply in_map_iff in Hin as (y & <- & Hy).
  specialize (Hx y Hy); rewrite (Cmp_flip (oid y) (oid x)) in Hx; lia.
Qed.

Lemma exact_none hs q :
  ascending hs ->
  (getManagedObject_loop hs q false = None <-> ~ In q (map oid hs)).
Proof.
  intros Hs; split.
  - intros Hn Hin; destruct (exact_complete hs q Hs Hin); congruence.
  - intros Hn; destruct (getManagedObject_loop hs q false) as [h|] eqn:E;
      [|reflexivity].
    apply exact_found in E as [Hin <-]; destruct Hn; now apply in_map.
Qed.

Lemma next_found hs q h :
  ascending hs -> getManagedObject_loop hs q true = Some h ->
  In h hs /\ Cmp q (oid h) < 0 /\
  forall y, In y hs -> Cmp q (oid y) < 0 -> Cmp (oid h) (oid y) <= 0.
Proof.
  induction hs as [|x hs IH]; intros Hs; [discriminate|].
  apply ascending_inv in Hs as [Hs Hx].
  rewrite loop_next_cons.
  destruct (Z.ltb_spec (Cmp q (oid x)) 0) as [Hlt|Hge].
  - intros [= <-]; split; [now left|split; [exact Hlt|]].
    intros y [<-|Hy] _; [rewrite Cmp_refl; lia|].
    specialize (Hx y Hy); lia.
  - intros H; destruct (IH Hs H) as (Hin & Hlt & Hmin).
    split; [now right|split; [exact Hlt|]].
    intros y [<-|Hy] Hqy; [lia|now apply Hmin].
Qed.

Lemma next_none hs q :
  getManagedObject_loop hs q true = None <->
  forall y, In y hs -> Cmp (oid y) q <= 0.
Proof.
  induction hs as [|x hs IH]; [split; [intros _ ? []|reflexivity]|].
  rewrite loop_next_cons.
  destruct (Z.ltb_spec (Cmp q (oid x)) 0) as [Hlt|Hge]; split.
  - discriminate.
  - intros H; specialize (H x (or_introl eq_refl)).
    rewrite (Cmp_flip q (oid x)) in H; lia.
  - intros H y [<-|Hy]; [rewrite (Cmp_flip q (oid x)); lia|].
    now apply IH.
  - intros H; apply IH; intros y Hy; apply H; now right.
Qed.

Lemma ascending_unique hs h1 h2 :
  ascending hs -> In h1 hs -> In h2 hs -> oid h1 = oid h2 -> h1 = h2.
Proof.
  induction hs as [|x hs IH]; intros Hs H1 H2 E; [destruct H1|].
  apply ascending_inv in Hs as [Hs Hx].
  destruct H1 as [<-|H1], H2 as [<-|H2]; auto.
  - specialize (Hx h2 H2); rewrite E in Hx; now apply Cmp_irrefl in Hx.
  - specialize (Hx h1 H1); rewrite E in Hx; now apply Cmp_irrefl in Hx.
Qed.

(** *** Registration keeps the registry ascending *)

(** The outcomes of a registration call. *)
Lemma AddRwManagedObject_cases a name getter setter :
  (exists e, AddRwManagedObject a name getter setter = (a, Some e) /\
             (getter = None \/
              exists h, getManagedObject a name false = Some h)) \/
  (exists g, getter = Some g /\
     getManagedObject a name false = None /\
     AddRwManagedObject a name getter setter =
       ({| handlers :=
             sort_Sort (handlers a ++
               [{| oid := name; get := g;
                   set := match setter with
                          | None => notWritableSetter
                          | Some s => s
                          end |}]);
           public := public a;
           private := private a |}, None)).
Proof.
  unfold AddRwManagedObject.
  destruct getter as [g|]; [|left; eexists; split; [reflexivity|now left]].
  destruct (getManagedObject a name false) as [h|] eqn:E.
  - left; eexists; split; [reflexivity|right; now exists h].
  - right; exists g; auto.
Qed.

Lemma AddRwManagedObject_spec a name getter setter :
  ascending (handlers a) ->
  let a' := fst (AddRwManagedObject a name getter setter) in
  ascending (handlers a') /\
  (forall h, In h (handlers a) -> In h (handlers a')) /\
  (forall o, In o (map oid (handlers a')) <->
             In o (map oid (handlers a)) \/ (getter <> None /\ o = name)).
Proof.
  intros Hs a'; subst a'.
  destruct (AddRwManagedObject_cases a name getter setter)
    as [(e & -> & Hwhy)|(g & -> & Hnone & ->)]; simpl.
  - split; [exact Hs|split; [auto|]].
    intros o; split; [auto|intros [H|[Hg ->]]; [exact H|]].
    destruct Hwhy as [->|[h Hh]]; [congruence|].
    apply exact_found in Hh as [Hin <-]; now apply in_map.
  - set (h := {| oid := name; get := g; set := _ |}).
    assert (Hnew : ~ In name (map oid (handlers a)))
      by (now apply exact_none).
    assert (Hp : Permutation (sort_Sort (handlers a ++ [h])) (h :: handlers a)).
    { rewrite sort_Sort_perm; symmetry; apply Permutation_cons_append. }
    split; [|split].
    + apply sort_Sort_ascending.
      rewrite map_app; simpl.
      apply (Permutation_NoDup (Permutation_cons_append _ _)).
      constructor; [exact Hnew|now apply ascending_NoDup].
    + intros x Hx; apply (Permutation_in _ (Permutation_sym Hp)); now right.
    + intros o; rewrite (Permutation_map oid Hp); simpl; split.
      * intros [<-|H]; [right; split; [discriminate|reflexivity]|now left].
      * intros [H|[_ ->]]; [now right|now left].
Qed.

Lemma applyCall_spec a c :
  ascending (handlers a) ->
  ascending (handlers (applyCall a c)) /\
  (forall h, In h (handlers a) -> In h (handlers (applyCall a c))) /\
  (forall o, In o (map oid (handlers (applyCall a c))) <->
             In o (map oid (handlers a)) \/ offers c = Some o).
Proof.
  intros Hs; destruct c as [pub priv|name getter|name getter setter]; simpl.
  - split; [exact Hs|split; [auto|]].
    intros o; split; [auto|intros [H|H]; [exact H|discriminate]].
  - destruct (AddRwManagedObject_spec a name getter None Hs) as (H1 & H2 & H3).
    split; [exact H1|split; [exact H2|]].
    intros o; unfold AddRoManagedObject; rewrite H3.
    apply or_iff_compat_l; destruct getter as [g|]; simpl; split.
    + intros [_ ->]; reflexivity.
    + intros [= ->]; split; [discriminate|reflexivity].
    + intros [H _]; congruence.
    + discriminate.
  - destruct (AddRwManagedObject_spec a name getter setter Hs) as (H1 & H2 & H3).
    split; [exact H1|split; [exact H2|]].
    intros o; rewrite H3.
    apply or_iff_compat_l; destruct getter as [g|]; simpl; split.
    + intros [_ ->]; reflexivity.
    + intros [= ->]; split; [discriminate|reflexivity].
    + intros [H _]; congruence.
    + discriminate.
Qed.

Lemma setup_snoc cs c : setup (cs ++ [c]) = applyCall (setup cs) c.
Proof. unfold setup; now rewrite fold_left_app. Qed.

Lemma registeredOids_app cs cs' :
  registeredOids (cs ++ cs') = registeredOids cs ++ registeredOids cs'.
Proof.
  induction cs as [|c cs IH]; simpl; [reflexivity|].
  destruct (offers c); simpl; now rewrite IH.
Qed.

Lemma setup_invariant cs :
  ascending (handlers (setup cs)) /\
  forall o, In o (map oid (handlers (setup cs))) <-> In o (registeredOids cs).
Proof.
  induction cs as [|c cs [IHs IHo]] using rev_ind.
  - split; [constructor|reflexivity].
  - rewrite setup_snoc, registeredOids_app.
    destruct (applyCall_spec (setup cs) c IHs) as (H1 & _ & H3).
    split; [exact H1|].
    intros o; rewrite H3, in_app_iff, IHo; simpl.
    destruct (offers c) as [n|]; simpl; split; intros [H|H]; auto.
    + injection H as ->; right; now left.
    + destruct H as [->|[]]; now right.
    + discriminate.
    + destruct H.
Qed.

Lemma setup_ascending cs : ascending (handlers (setup cs)).
Proof. apply setup_invariant. Qed.

Lemma setup_oids cs o :
  In o (map oid (handlers (setup cs))) <-> In o (registeredOids cs).
Proof. apply setup_invariant. Qed.

End Lookup.

(** ** Registry lookup and registration *)

Section RegistryClaims.

Context {World : Type}.
Implicit Types (a : Agent World) (cs : list (SetupCall World)).

Lemma ascending_nth (hs : list (managedObject World)) :
  ascending hs ->
  forall i j hi hj, (i < j)%nat ->
    nth_error hs i = Some hi -> nth_error hs j = Some hj ->
    Cmp (oid hi) (oid hj) < 0.
Proof.
  induction hs as [|x hs IH]; intros Hs i j hi hj Hij Hi Hj.
  - now destruct i.
  - apply ascending_inv in Hs as [Hs Hx].
    destruct j as [|j]; [lia|]; simpl in Hj.
    destruct i as [|i]; simpl in Hi.
    + injection Hi as <-; apply Hx; eapply nth_error_In; eassumption.
    + apply (IH Hs i j); auto; lia.
Qed.

(** C3: on the registry built by any sequence of registration calls,
    exact lookup ([next = false]) returns an entry iff the queried OID was
    registered, and that entry carries the queried OID; lookup of the
    successor ([next = true]) returns the registered entry with the least
    OID strictly above the query, and returns nothing iff every
    registered OID is below or equal to the query. *)
Theorem C3_lookup_exact_and_next cs (q : Oid) :
  let a := setup cs in
  ((exists h, getManagedObject a q false = Some h) <->
   In q (registeredOids cs)) /\
  (forall h, getManagedObject a q false = Some h ->
     In h (handlers a) /\ oid h = q) /\
  (forall h, getManagedObject a q true = Some h ->
     In h (handlers a) /\ In (oid h) (registeredOids cs) /\
     Cmp q (oid h) < 0 /\
     forall o, In o (registeredOids cs) -> Cmp q o < 0 ->
               Cmp (oid h) o <= 0) /\
  (getManagedObject a q true = None <->
   forall o, In o (registeredOids cs) -> Cmp o q <= 0).
Proof.
  intros a; subst a; unfold getManagedObject.
  pose proof (setup_ascending cs) as Hs.
  split; [|split; [|split]].
  - rewrite <- setup_oids; split.
    + intros [h Hh]; apply exact_found in Hh as [Hin <-]; now apply in_map.
    + now apply exact_complete.
  - intros h; apply exact_found.
  - intros h Hh; destruct (next_found _ _ _ Hs Hh) as (Hin & Hlt & Hmin).
    split; [exact Hin|split; [|split; [exact Hlt|]]].
    + apply setup_oids; now apply in_map.
    + intros o Ho Hqo; apply setup_oids, in_map_iff in Ho as (y & <- & Hy).
      now apply Hmin.
  - rewrite next_none; split.
    + intros H o Ho; apply setup_oids, in_map_iff in Ho as (y & <- & Hy).
      now apply H.
    + intros H y Hy; apply H, setup_oids; now apply in_map.
Qed.

(** C4: after any sequence of registration calls the handler slice is in
    strictly ascending OID order (for all i < j the OID at i is below the
    OID at j, so keys are unique), and a registration call that names an
    OID already registered, or passes no getter, returns an error and
    the agent it was called on, unchanged. *)
Theorem C4_registry_ascending_and_rejection cs :
  let a := setup cs in
  (forall i j hi hj, (i < j)%nat ->
     nth_error (handlers a) i = Some hi ->
     nth_error (handlers a) j = Some hj ->
     Cmp (oid hi) (oid hj) < 0) /\
  (forall name getter setter,
     getter = None \/ In name (registeredOids cs) ->
     exists e, AddRwManagedObject a name getter setter = (a, Some e)) /\
  (forall name getter,
     getter = None \/ In name (registeredOids cs) ->
     exists e, AddRoManagedObject a name getter = (a, Some e)).
Proof.
  intros a; subst a.
  pose proof (setup_ascending cs) as Hs.
  assert (Hrw : forall name getter setter,
             getter = None \/ In name (registeredOids cs) ->
             exists e, AddRwManagedObject (setup cs) name getter setter
                       = (setup cs, Some e)).
  { intros name getter setter Hwhy.
    destruct (AddRwManagedObject_cases (setup cs) name getter setter)
      as [(e & He & _)|(g & -> & Hnone & _)]; [now exists e|].
    destruct Hwhy as [?|Hin]; [discriminate|].
    apply setup_oids in Hin.
    unfold getManagedObject in Hnone.
    now apply (exact_none _ _ Hs) in Hnone. }
  split; [now apply ascending_nth|split; [exact Hrw|]].
  intros name getter; apply Hrw.
Qed.

End RegistryClaims.

(** ** The PDU processor *)

Section ProcessorLemmas.

Context {World : Type}.
Implicit Types (a : Agent World) (h : managedObject World).
Implicit Types (env : Env World) (res pdu : Pdu).

(** An accessor call in the monad is [access] on the world; it only adds
    to the trace. *)
Lemma call_access h (isSet : bool) (v : VarBind) env :
  exists tr,
    (if isSet then callSet h (Value_ v) else callGet h) env =
    (fst (access h isSet v (world env)),
     {| world := snd (access h isSet v (world env)); calls := tr |}).
Proof.
  destruct isSet; unfold callSet, callGet, access, bind, emit, inWorld, ret;
    simpl.
  - destruct (set h (oid h) (Value_ v) (world env)) as [err w'].
    eexists; reflexivity.
  - destruct (get h (oid h) (world env)) as [r w'].
    eexists; reflexivity.
Qed.

(** One turn of the loop of [processPdu]. *)
Lemma loop_cons a (next isSet : bool) res i v vs variables env :
  processPdu_loop a next isSet res i (v :: vs) variables env =
  let env0 := {| world := world env;
                 calls := calls env ++ [EvLookup (Name v) next] |} in
  match getManagedObject a (Name v) next with
  | None => (withError res (i + 1) NoSuchName, env0)
  | Some h =>
      let '(r, env1) :=
        (if isSet then callSet h (Value_ v) else callGet h) env0 in
      match snd r with
      | Some e => (withError res (i + 1) (statusOf e), env1)
      | None =>
          processPdu_loop a next isSet res (i + 1) vs
            (if negb isSet
             then variables ++ [mkVariable (oid h) (fst r)]
             else variables) env1
      end
  end.
Proof.
  simpl; unfold bind at 1, emit; simpl.
  destruct (getManagedObject a (Name v) next) as [h|]; [|reflexivity].
  unfold bind at 1.
  destruct ((if isSet then callSet h (Value_ v) else callGet h) _)
    as [[value err] env1]; simpl.
  destruct err; reflexivity.
Qed.

(** A prefix of bindings that all succeed is walked through: the loop
    arrives at the rest with the index advanced, the values kept and the
    world the accessors left. *)
Lemma loop_prefix a (next isSet : bool) w pre out w1 :
  allSucceed a next isSet w pre out w1 ->
  forall res i rest variables env, world env = w ->
  exists env1, world env1 = w1 /\
    processPdu_loop a next isSet res i (pre ++ rest) variables env =
    processPdu_loop a next isSet res (i + Z.of_nat (List.length pre)) rest
      (if negb isSet then variables ++ out else variables) env1.
Proof.
  induction 1 as [w|w v vs h value w1 out w2 Hh Hacc _ IH];
    intros res i rest variables env Hw.
  - exists env; split; [exact Hw|]; simpl.
    rewrite Z.add_0_r; destruct isSet; simpl; [reflexivity|].
    now rewrite app_nil_r.
  - rewrite <- app_comm_cons, loop_cons; simpl; rewrite Hh.
    set (env0 := {| world := world env; calls := _ |}).
    destruct (call_access h isSet v env0) as [tr Hcall].
    rewrite Hcall; simpl; rewrite Hw, Hacc; simpl.
    set (env1 := {| world := w1; calls := tr |}).
    destruct (IH res (i + 1) rest
                (if negb isSet
                 then variables ++ [mkVariable (oid h) value]
                 else variables) env1 eq_refl) as (env2 & Hw2 & Hrun).
    exists env2; split; [exact Hw2|].
    rewrite Hrun; f_equal; [lia|].
    destruct isSet; simpl; [reflexivity|].
    now rewrite <- app_assoc.
Qed.

(** A binding that fails ends the loop with its status and position. *)
Lemma loop_fails a (next isSet : bool) w v st :
  failsWith a next isSet w v st ->
  forall res i rest variables env, world env = w ->
  exists env1,
    processPdu_loop a next isSet res i (v :: rest) variables env =
    (withError res (i + 1) st, env1).
Proof.
  intros Hf res i rest variables env Hw; rewrite loop_cons; simpl.
  set (env0 := {| world := world env; calls := _ |}).
  destruct Hf as [Hh|h value e w' Hh Hacc|h value msg w' Hh Hacc]; rewrite Hh.
  - eexists; reflexivity.
  - destruct (call_access h isSet v env0) as [tr Hcall].
    rewrite Hcall; simpl; rewrite Hw, Hacc; simpl.
    eexists; reflexivity.
  - destruct (call_access h isSet v env0) as [tr Hcall].
    rewrite Hcall; simpl; rewrite Hw, Hacc; simpl.
    eexists; reflexivity.
Qed.

(** The response of [processPdu] when the first failure is at [v]. *)
Lemma processPdu_first_failure a pdu (next isSet : bool) env
    pre v post out w1 st :
  Variables pdu = pre ++ v :: post ->
  allSucceed a next isSet (world env) pre out w1 ->
  failsWith a next isSet w1 v st ->
  exists env1,
    processPdu a pdu next isSet env =
    (withError pdu (Z.of_nat (List.length pre) + 1) st, env1).
Proof.
  intros Hvars Hpre Hfail; unfold processPdu; rewrite Hvars.
  destruct (loop_prefix _ _ _ _ _ _ _ Hpre pdu 0 (v :: post) [] env eq_refl)
    as (env1 & Hw1 & ->).
  destruct (loop_fails _ _ _ _ _ _ Hfail pdu
              (0 + Z.of_nat (List.length pre)) post
              (if negb isSet then [] ++ out else []) env1 Hw1)
    as (env2 & ->).
  now exists env2.
Qed.

(** The response of [processPdu] when no binding fails. *)
Lemma processPdu_all_succeed a pdu (next isSet : bool) env out w1 :
  allSucceed a next isSet (world env) (Variables pdu) out w1 ->
  exists env1, world env1 = w1 /\
    processPdu a pdu next isSet env =
    (if isSet then pdu else withVariables pdu out, env1).
Proof.
  intros Hall; unfold processPdu.
  destruct (loop_prefix _ _ _ _ _ _ _ Hall pdu 0 [] [] env eq_refl)
    as (env1 & Hw1 & Hrun).
  rewrite app_nil_r in Hrun; rewrite Hrun.
  exists env1; split; [exact Hw1|].
  destruct isSet; reflexivity.
Qed.

(** The bindings of a PDU either all succeed or have a first failure. *)
Lemma bindings_outcome a (next isSet : bool) vs w :
  (exists out w1, allSucceed a next isSet w vs out w1) \/
  (exists pre v post out w1 st,
      vs = pre ++ v :: post /\
      allSucceed a next isSet w pre out w1 /\
      failsWith a next isSet w1 v st).
Proof.
  revert w; induction vs as [|v vs IH]; intros w.
  - left; exists [], w; constructor.
  - destruct (getManagedObject a (Name v) next) as [h|] eqn:Hh.
    + destruct (access h isSet v w) as [[value [e|]] w'] eqn:Hacc.
      * right; exists [], v, vs, [], w.
        destruct e as [e|msg]; eexists;
          (split; [reflexivity|split; [constructor|]]).
        -- eapply fails_typed; eassumption.
        -- eapply fails_untyped; eassumption.
      * destruct (IH w') as [(out & w1 & Hall)
                            |(pre & u & post & out & w1 & st & -> & Hpre & Hf)].
        -- left; eexists; eexists; econstructor; eassumption.
        -- right; exists (v :: pre), u, post.
           eexists; exists w1, st; split; [reflexivity|split; [|exact Hf]].
           econstructor; eassumption.
    + right; exists [], v, vs, [], w, NoSuchName.
      split; [reflexivity|split; [constructor|now constructor]].
Qed.

(** [processPdu] never touches the request identifier. *)
Lemma processPdu_loop_Id a (next isSet : bool) res i vs variables env :
  Id (fst (processPdu_loop a next isSet res i vs variables env)) = Id res.
Proof.
  revert i variables env; induction vs as [|v vs IH]; intros i variables env.
  - simpl; destruct isSet; reflexivity.
  - rewrite loop_cons; simpl.
    destruct (getManagedObject a (Name v) next) as [h|]; [|reflexivity].
    destruct ((if isSet then callSet h (Value_ v) else callGet h) _)
      as [[value [e|]] env1]; simpl; [reflexivity|apply IH].
Qed.

End ProcessorLemmas.

Section ProcessorClaims.

Context {World : Type}.
Implicit Types (a : Agent World) (h : managedObject World).
Implicit Types (env : Env World) (res pdu : Pdu).

(** C1: when the binding at 1-based position i (the one after the prefix
    [pre], so i = length pre + 1) is the first that fails, because no
    registry entry resolves (NoSuchName) or because its accessor returns
    an error, the response of [processPdu] has that failure's status as
    ErrorStatus, i as ErrorIndex, and the request's own binding list as
    Variables: nothing kept from the bindings before i is in it. *)
Theorem C1_first_failure_response a pdu (next isSet : bool) env
    pre v post out w1 st :
  Variables pdu = pre ++ v :: post ->
  allSucceed a next isSet (world env) pre out w1 ->
  failsWith a next isSet w1 v st ->
  let res := fst (processPdu a pdu next isSet env) in
  ErrorStatus res = st /\
  ErrorIndex res = Z.of_nat (List.length pre) + 1 /\
  Variables res = Variables pdu.
Proof.
  intros Hvars Hpre Hfail.
  destruct (processPdu_first_failure a pdu next isSet env _ _ _ _ _ _
              Hvars Hpre Hfail) as [env1 ->].
  simpl; auto.
Qed.

(** C2, as the code has it: when every binding resolves and its accessor
    succeeds, the response of [processPdu] keeps the ErrorStatus and the
    ErrorIndex of the request PDU (so NoError and 0 for a request that
    carries 0 in both); for Get and GetNext its Variables are the
    accumulated list, each entry the resolved object's OID with the value
    its getter returned, one per request binding and in request order;
    for Set its Variables are the request's bindings. *)
Theorem C2_success_response a pdu (next isSet : bool) env out w1 :
  allSucceed a next isSet (world env) (Variables pdu) out w1 ->
  let res := fst (processPdu a pdu next isSet env) in
  ErrorStatus res = ErrorStatus pdu /\
  ErrorIndex res = ErrorIndex pdu /\
  (ErrorStatus pdu = NoError -> ErrorIndex pdu = 0 ->
   ErrorStatus res = 0 /\ ErrorIndex res = 0) /\
  Variables res = (if isSet then Variables pdu else out) /\
  Forall2 (fun request kept =>
             exists h, getManagedObject a (Name request) next = Some h /\
                       Name kept = oid h)
          (Variables pdu) out /\
  world (snd (processPdu a pdu next isSet env)) = w1.
Proof.
  intros Hall.
  destruct (processPdu_all_succeed a pdu next isSet env out w1 Hall)
    as (env1 & Hw1 & ->); simpl.
  assert (Hshape : Forall2
            (fun request kept =>
               exists h, getManagedObject a (Name request) next = Some h /\
                         Name kept = oid h) (Variables pdu) out).
  { clear Hw1; induction Hall; constructor; eauto. }
  destruct isSet; simpl; repeat split; auto; intros E1 E2; congruence.
Qed.

(** C8: when the accessor of the binding at position i fails (all the
    bindings before it having succeeded), ErrorIndex is i; ErrorStatus is
    the Status of the error when it is an [Error], and GenErr, that is 5,
    when it is any other error value. *)
Theorem C8_accessor_error_status a pdu (next isSet : bool) env
    pre v post out w1 h value err w2 :
  Variables pdu = pre ++ v :: post ->
  allSucceed a next isSet (world env) pre out w1 ->
  getManagedObject a (Name v) next = Some h ->
  access h isSet v w1 = ((value, Some err), w2) ->
  let res := fst (processPdu a pdu next isSet env) in
  ErrorIndex res = Z.of_nat (List.length pre) + 1 /\
  (forall e, err = IsError e -> ErrorStatus res = Status e) /\
  (forall msg, err = OtherError msg -> ErrorStatus res = 5).
Proof.
  intros Hvars Hpre Hh Hacc.
  assert (Hfail : failsWith a next isSet w1 v
                    (match err with
                     | IsError e => Status e
                     | OtherError _ => GenErr
                     end)).
  { destruct err as [e|msg].
    - eapply fails_typed; eassumption.
    - eapply fails_untyped; eassumption. }
  destruct (processPdu_first_failure a pdu next isSet env _ _ _ _ _ _
              Hvars Hpre Hfail) as [env1 ->]; simpl.
  split; [reflexivity|split].
  - now intros e ->.
  - now intros msg ->.
Qed.

End ProcessorClaims.

(** ** Access control and the dispatcher *)

Section DispatcherClaims.

Context {World : Type}.
Implicit Types (a : Agent World) (env : Env World) (request : Message).

Lemma checkCommunity_private a : checkCommunity a (private a) = (true, None).
Proof.
  unfold checkCommunity; rewrite String.eqb_refl; simpl.
  now rewrite andb_false_r.
Qed.

Lemma checkCommunity_fails a community :
  snd (checkCommunity a community) <> None <->
  community <> public a /\ community <> private a.
Proof.
  unfold checkCommunity.
  destruct (String.eqb_spec community (public a)) as [Ep|Np];
    destruct (String.eqb_spec community (private a)) as [Eq|Nq]; simpl;
    split; try tauto; try discriminate; intros [? ?]; congruence.
Qed.

(** C6: the community check fails iff the community equals neither the
    read community nor the write community, and then [ProcessMessage]
    returns an error and no response, leaving world and trace as they
    were; a community equal to the write community gives rw = true; one
    equal to the read community only gives rw = false; the comparison is
    equality of strings, so a different case or a prefix does not match. *)
Theorem C6_checkCommunity a (community : string) :
  (snd (checkCommunity a community) <> None <->
   community <> public a /\ community <> private a) /\
  (community = private a -> checkCommunity a community = (true, None)) /\
  (community = public a -> community <> private a ->
   checkCommunity a community = (false, None)) /\
  (snd (checkCommunity a community) <> None ->
   forall request env, Community request = community ->
     exists e, ProcessMessage a request env = (inr e, env)) /\
  snd (checkCommunity (@NewAgent World) "Public") <> None /\
  snd (checkCommunity (@NewAgent World) "publ") <> None /\
  snd (checkCommunity (@NewAgent World) "private ") <> None.
Proof.
  split; [apply checkCommunity_fails|].
  split; [intros ->; apply checkCommunity_private|].
  split.
  { intros -> Hne; unfold checkCommunity; rewrite String.eqb_refl; simpl.
    destruct (String.eqb_spec (public a) (private a)); [contradiction|].
    reflexivity. }
  split.
  { intros Hfail request env <-; unfold ProcessMessage.
    destruct (negb (Version request =? 0)); [eexists; reflexivity|].
    destruct (checkCommunity a (Community request)) as [rw [e|]];
      [eexists; reflexivity|now destruct Hfail]. }
  repeat split; discriminate.
Qed.

(** C7: a request whose version is not 0 makes [ProcessMessage] return an
    error and no response, and [ProcessDatagram] an error and no bytes,
    whatever the codec; nothing is looked up or called.  In the revision
    where [ProcessDatagram] holds the version gate itself, the gate lets
    versions 0 and 1 through and rejects every other version the same
    way. *)
Theorem C7_version_gate
    (Decode : list Byte.byte -> (Message * list Byte.byte) + error)
    (Encode : Message -> list Byte.byte + error)
    a request env :
  Version request <> 0 ->
  (exists e, ProcessMessage a request env = (inr e, env)) /\
  (forall requestBytes remaining,
     Decode requestBytes = inl (request, remaining) ->
     exists e, ProcessDatagram Decode Encode a requestBytes env
               = (inr e, env)) /\
  (Version request <> 1 ->
   forall requestBytes remaining,
     Decode requestBytes = inl (request, remaining) ->
     exists e, DatagramOnly.ProcessDatagram Decode Encode a requestBytes env
               = (inr e, env)).
Proof.
  intros Hv.
  assert (Hpm : exists e, ProcessMessage a request env = (inr e, env)).
  { unfold ProcessMessage.
    destruct (Z.eqb_spec (Version request) 0); [contradiction|].
    eexists; reflexivity. }
  split; [exact Hpm|split].
  - intros requestBytes remaining Hdec; unfold ProcessDatagram.
    rewrite Hdec.
    destruct (0 <? Z.of_nat (List.length remaining)); [eexists; reflexivity|].
    destruct Hpm as [e He]; unfold bind; rewrite He.
    eexists; reflexivity.
  - intros Hv1 requestBytes remaining Hdec.
    unfold DatagramOnly.ProcessDatagram, decodeMessage; rewrite Hdec.
    destruct (0 <? Z.of_nat (List.length remaining)); [eexists; reflexivity|].
    destruct (Z.eqb_spec (Version request) 0); [contradiction|].
    destruct (Z.eqb_spec (Version request) 1); [contradiction|].
    eexists; reflexivity.
Qed.

(** C5: a Set request under a community that authorizes reading only
    (the check gives rw = false and no error) is answered at once with
    ErrorStatus = NoSuchName (2) and ErrorIndex = 1 on the request's own
    PDU, whatever its bindings; the world and the call trace come back as
    they were: no registry lookup was made and no setter was called. *)
Theorem C5_set_under_read_community a request pdu env :
  Version request = 0 ->
  checkCommunity a (Community request) = (false, None) ->
  Pdu_ request = SetRequestPdu pdu ->
  ProcessMessage a request env =
  (inl {| Version := Version request;
          Community := Community request;
          Pdu_ := GetResponsePdu
                    {| Id := Id pdu;
                       ErrorStatus := 2;
                       ErrorIndex := 1;
                       Variables := Variables pdu |} |}, env).
Proof.
  intros Hv Hc Hp; unfold ProcessMessage.
  rewrite Hc, Hp.
  replace (Version request =? 0) with true by (symmetry; now apply Z.eqb_eq).
  reflexivity.
Qed.

(** A request with version 0, an accepted community and a Get, GetNext
    or Set PDU is serviced: [ProcessMessage] returns a response. *)
Lemma ProcessMessage_serviced a request pdu env :
  Version request = 0 ->
  snd (checkCommunity a (Community request)) = None ->
  requestPdu (Pdu_ request) = Some pdu ->
  exists response env', ProcessMessage a request env = (inl response, env').
Proof.
  intros Hv Hc Hp; unfold ProcessMessage; rewrite Hv; simpl.
  destruct (checkCommunity a (Community request)) as [rw err].
  simpl in Hc; subst err.
  destruct (Pdu_ request) as [p|p|p|p|t|p|p|p]; try discriminate;
    unfold bind, ret.
  - destruct (processPdu a p false false env); eexists; eexists; reflexivity.
  - destruct (processPdu a p true false env); eexists; eexists; reflexivity.
  - destruct rw; [|eexists; eexists; reflexivity].
    destruct (processPdu a p false true env); eexists; eexists; reflexivity.
Qed.

(** C10: whenever [ProcessMessage] answers a request, the request PDU is
    a Get, GetNext or Set PDU, the answer carries a GetResponse PDU, and
    the Id of that PDU is the Id of the request PDU, on the success path
    and on every error path alike. *)
Theorem C10_identifier_preserved a request env response env' :
  ProcessMessage a request env = (inl response, env') ->
  exists pdu res,
    requestPdu (Pdu_ request) = Some pdu /\
    Pdu_ response = GetResponsePdu res /\
    Id res = Id pdu.
Proof.
  unfold ProcessMessage.
  destruct (negb (Version request =? 0)); [discriminate|].
  destruct (checkCommunity a (Community request)) as [rw [e|]];
    [discriminate|].
  assert (Hrun : forall p next isSet,
             (res <- processPdu a p next isSet ;;
              ret (@inl Message error (respond request res))) env
             = (inl response, env') ->
             exists res, Pdu_ response = GetResponsePdu res /\ Id res = Id p).
  { intros p next isSet; unfold bind, ret.
    pose proof (processPdu_loop_Id a next isSet p 0 (Variables p) [] env)
      as HId.
    fold (processPdu a p next isSet) in HId.
    destruct (processPdu a p next isSet env) as [res env1].
    intros [= <- _]; now exists res. }
  destruct (Pdu_ request) as [p|p|p|p|t|p|p|p]; try discriminate; simpl.
  - intros H; apply Hrun in H as (res & ? & ?); exists p, res; auto.
  - intros H; apply Hrun in H as (res & ? & ?); exists p, res; auto.
  - destruct rw.
    + intros H; apply Hrun in H as (res & ? & ?); exists p, res; auto.
    + intros [= <- _]; eexists; eexists; repeat split.
Qed.

End DispatcherClaims.

(** ** Objects registered without a setter *)

Section ReadOnlyObjects.

Context {World : Type}.
Implicit Types (a : Agent World) (h : managedObject World).
Implicit Types (cs : list (SetupCall World)) (env : Env World).

Lemma setup_app cs cs' :
  setup (cs ++ cs') = fold_left applyCall cs' (setup cs).
Proof. unfold setup; apply fold_left_app. Qed.

(** Later calls keep every entry of the registry. *)
Lemma later_calls_keep cs a h :
  ascending (handlers a) -> In h (handlers a) ->
  In h (handlers (fold_left applyCall cs a)).
Proof.
  revert a; induction cs as [|c cs IH]; intros a Hs Hin; [exact Hin|].
  simpl; destruct (applyCall_spec a c Hs) as (Hs' & Hkeep & _).
  apply IH; auto.
Qed.

(** The first registration of [name], made without a setter, puts an
    entry with the not-writable setter in the registry, for good. *)
Lemma readOnly_entry before c after name :
  readOnlyCall c name -> ~ In name (registeredOids before) ->
  exists g : Getter World,
    In {| oid := name; get := g; set := notWritableSetter |}
       (handlers (setup (before ++ c :: after))).
Proof.
  intros Hc Hnew.
  assert (Hcall : exists g,
             applyCall (setup before) c =
             fst (AddRwManagedObject (setup before) name (Some g) None)).
  { destruct Hc as [[g ->]|[g ->]]; exists g; reflexivity. }
  destruct Hcall as [g Hcall]; exists g.
  rewrite setup_app; simpl; rewrite Hcall.
  pose proof (setup_ascending before) as Hs.
  apply later_calls_keep.
  - now apply AddRwManagedObject_spec.
  - destruct (AddRwManagedObject_cases (setup before) name (Some g) None)
      as [(e & _ & [?|[h Hh]])|(g' & [= <-] & _ & ->)]; [discriminate| |].
    + apply exact_found in Hh as [Hin <-].
      destruct Hnew; apply setup_oids; now apply in_map.
    + simpl; apply (Permutation_in _ (Permutation_sym (sort_Sort_perm _))).
      apply in_or_app; right; now left.
Qed.

Lemma readOnly_setter before c after name h :
  readOnlyCall c name -> ~ In name (registeredOids before) ->
  getManagedObject (setup (before ++ c :: after)) name false = Some h ->
  set h = notWritableSetter.
Proof.
  intros Hc Hnew Hh.
  destruct (readOnly_entry before c after name Hc Hnew) as [g Hin].
  apply exact_found in Hh as [Hin' E].
  now rewrite (ascending_unique _ _ _ (setup_ascending _) Hin' Hin E).
Qed.

(** C9: let [name] be registered without a setter, by AddRoManagedObject
    or by AddRwManagedObject with a nil setter (the call [c], the first
    to register [name]).  A Set request under the write community whose
    binding at position i names that object, the bindings before it
    having succeeded, is answered with ErrorStatus = NotWritable (17) and
    ErrorIndex = i; the failing setter leaves the world as the bindings
    before it made it. *)
Theorem C9_set_on_read_only_object before c after name
    request pdu pre v post out w1 env :
  readOnlyCall c name -> ~ In name (registeredOids before) ->
  Version request = 0 ->
  Community request = private (setup (before ++ c :: after)) ->
  Pdu_ request = SetRequestPdu pdu ->
  Variables pdu = pre ++ v :: post ->
  allSucceed (setup (before ++ c :: after)) false true (world env) pre out w1 ->
  Name v = name ->
  exists res env',
    ProcessMessage (setup (before ++ c :: after)) request env
    = (inl (respond request res), env') /\
    ErrorStatus res = 17 /\
    ErrorIndex res = Z.of_nat (List.length pre) + 1 /\
    world env' = w1.
Proof.
  intros Hc Hnew Hv Hcomm Hp Hvars Hpre Hname.
  set (a := setup (before ++ c :: after)) in *.
  assert (Hreg : exists h, getManagedObject a (Name v) false = Some h).
  { rewrite Hname; apply exact_complete; [apply setup_ascending|].
    apply setup_oids; rewrite registeredOids_app, in_app_iff; right.
    destruct Hc as [[g ->]|[g ->]]; now left. }
  destruct Hreg as [h Hh].
  assert (Hset : set h = notWritableSetter).
  { rewrite Hname in Hh; exact (readOnly_setter _ _ _ _ _ Hc Hnew Hh). }
  assert (Hacc : access h true v w1 =
                 ((VNil, Some (IsError
                    (Errorf NotWritable "OID %s is not writable"))), w1)).
  { unfold access; rewrite Hset; reflexivity. }
  unfold ProcessMessage.
  replace (Version request =? 0) with true by (symmetry; now apply Z.eqb_eq).
  rewrite Hcomm, checkCommunity_private, Hp; simpl.
  unfold bind, ret, processPdu; rewrite Hvars.
  destruct (loop_prefix _ _ _ _ _ _ _ Hpre pdu 0 (v :: post) [] env eq_refl)
    as (env1 & Hw1 & ->).
  rewrite loop_cons; cbv zeta; rewrite Hh.
  destruct (call_access h true v
              {| world := world env1;
                 calls := calls env1 ++ [EvLookup (Name v) false] |})
    as [tr Hcall].
  rewrite Hcall; cbn [world fst snd]; rewrite Hw1, Hacc; cbn [fst snd].
  eexists; eexists; split; [reflexivity|simpl].
  repeat split; lia.
Qed.

End ReadOnlyObjects.

(** ** The claims on the example agent *)

Import Example.

Lemma C1_first_failure_example :
  let res := fst (processPdu agent getThree false false start) in
  ErrorStatus res = NoSuchName /\ ErrorIndex res = 2 /\
  Variables res = Variables getThree.
Proof.
  eapply (C1_first_failure_response agent getThree false false start
            [binding sysUpTime] (binding sysContact) [binding sysName]).
  - reflexivity.
  - econstructor; [reflexivity|reflexivity|constructor].
  - apply fails_unresolved; reflexivity.
Defined.

Lemma C2_success_example :
  let res := fst (processPdu agent getTwo false false start) in
  ErrorStatus res = 0 /\ ErrorIndex res = 0 /\
  Variables res = [mkVariable sysUpTime (VInt 123);
                   mkVariable sysName (VString "example")].
Proof.
  assert (Hall : allSucceed agent false false (world start) (Variables getTwo)
                   [mkVariable sysUpTime (VInt 123);
                    mkVariable sysName (VString "example")] "example").
  { eapply (allSucceed_cons agent false false _ _ _
              {| oid := sysUpTime; get := getUpTime;
                 set := notWritableSetter |});
      [reflexivity|reflexivity|].
    eapply (allSucceed_cons agent false false _ _ _
              {| oid := sysName; get := getName; set := setName |});
      [reflexivity|reflexivity|constructor]. }
  destruct (C2_success_response agent getTwo false false start _ _ Hall)
    as (Hs & Hi & _ & Hv & _).
  split; [exact Hs|split; [exact Hi|exact Hv]].
Defined.

(** The claim C2 as the spec words it fails on a request whose error fields
    are not zero: every binding of [getMarked] resolves and its getter
    succeeds, and the response carries ErrorStatus 5 and ErrorIndex 3. *)
Lemma C2_nonzero_request_counterexample :
  allSucceed agent false false (world start) (Variables getMarked)
    [mkVariable sysUpTime (VInt 123)] (world start) /\
  ErrorStatus (fst (processPdu agent getMarked false false start)) = 5 /\
  ErrorStatus (fst (processPdu agent getMarked false false start)) <> NoError /\
  ErrorIndex (fst (processPdu agent getMarked false false start)) = 3 /\
  ErrorIndex (fst (processPdu agent getMarked false false start)) <> 0.
Proof.
  split.
  - eapply (allSucceed_cons agent false false _ _ _
              {| oid := sysUpTime; get := getUpTime;
                 set := notWritableSetter |});
      [reflexivity|reflexivity|constructor].
  - vm_compute; repeat split; discriminate.
Qed.

Lemma C5_set_under_read_community_example :
  ProcessMessage agent setAsReader start =
  (inl {| Version := 0; Community := "publ";
          Pdu_ := GetResponsePdu
                    {| Id := 1949582188; ErrorStatus := 2; ErrorIndex := 1;
                       Variables := Variables setTwo |} |}, start).
Proof.
  apply (C5_set_under_read_community agent setAsReader setTwo start);
    reflexivity.
Defined.

Lemma C7_version_gate_example :
  (exists e, ProcessMessage agent getVersion3 start = (inr e, start)) /\
  (exists e, ProcessDatagram Decode Encode agent [] start = (inr e, start)) /\
  (exists e, DatagramOnly.ProcessDatagram Decode Encode agent [] start
             = (inr e, start)).
Proof.
  assert (Hv : Version getVersion3 <> 0) by discriminate.
  destruct (C7_version_gate Decode Encode agent getVersion3 start Hv)
    as (H1 & H2 & H3).
  split; [exact H1|split].
  - exact (H2 [] [] eq_refl).
  - refine (H3 _ [] [] eq_refl); discriminate.
Defined.

Lemma C8_accessor_error_example :
  let res := fst (processPdu brokenAgent getThree false false start) in
  ErrorIndex res = 2 /\ ErrorStatus res = 5.
Proof.
  assert (Hpre : allSucceed brokenAgent false false (world start)
                   [binding sysUpTime] [mkVariable sysUpTime (VInt 123)]
                   "example").
  { eapply (allSucceed_cons brokenAgent false false _ _ _
              {| oid := sysUpTime; get := getUpTime;
                 set := notWritableSetter |});
      [reflexivity|reflexivity|constructor]. }
  destruct (C8_accessor_error_status brokenAgent getThree false false start
              [binding sysUpTime] (binding sysContact) [binding sysName]
              _ _
              {| oid := sysContact; get := getBroken;
                 set := notWritableSetter |}
              VNil (fmt_Errorf "not available") "example"
              eq_refl Hpre eq_refl eq_refl) as (Hi & _ & Hs).
  split; [exact Hi|exact (Hs _ eq_refl)].
Defined.

Lemma C9_set_on_read_only_example :
  exists res env',
    ProcessMessage agent setAsWriter start
    = (inl (respond setAsWriter res), env') /\
    ErrorStatus res = 17 /\ ErrorIndex res = 2 /\ world env' = "renamed".
Proof.
  assert (Hpre : allSucceed agent false true (world start)
                   [mkVariable sysName (VString "renamed")]
                   [mkVariable sysName VNil] "renamed").
  { eapply (allSucceed_cons agent false true _ _ _
              {| oid := sysName; get := getName; set := setName |});
      [reflexivity|reflexivity|constructor]. }
  assert (Hro : readOnlyCall (CallAddRo sysUpTime (Some getUpTime)) sysUpTime)
    by (left; exists getUpTime; reflexivity).
  assert (Hnew : ~ In sysUpTime
                     (registeredOids [CallSetCommunities (World := World)
                                        "publ" "priv"]))
    by (simpl; tauto).
  exact (C9_set_on_read_only_object
           [CallSetCommunities "publ" "priv"]
           (CallAddRo sysUpTime (Some getUpTime))
           [CallAddRw sysName (Some getName) (Some setName)]
           sysUpTime setAsWriter setTwo
           [mkVariable sysName (VString "renamed")]
           (mkVariable sysUpTime (VInt 0)) []
           [mkVariable sysName VNil] "renamed" start
           Hro Hnew eq_refl eq_refl eq_refl eq_refl Hpre eq_refl).
Defined.

Lemma C10_identifier_example :
  exists pdu res,
    requestPdu (Pdu_ getAsReader) = Some pdu /\
    Pdu_ (respond getAsReader (withError getThree 2 NoSuchName))
    = GetResponsePdu res /\
    Id res = Id pdu.
Proof.
  eapply (C10_identifier_preserved agent getAsReader start).
  reflexivity.
Defined.

(** * Further properties *)

(** ** The dispatcher, case by case *)

Section DispatcherCases.

Context {World : Type}.
Implicit Types (a : Agent World) (env : Env World) (request : Message).

(** What a run of [ProcessMessage] that answers went through. *)
Lemma ProcessMessage_answer_inv a request env response env' :
  ProcessMessage a request env = (inl response, env') ->
  Version request = 0 /\
  snd (checkCommunity a (Community request)) = None /\
  exists pdu res,
    requestPdu (Pdu_ request) = Some pdu /\
    response = respond request res /\
    ((Pdu_ request = GetRequestPdu pdu /\
      processPdu a pdu false false env = (res, env')) \/
     (Pdu_ request = GetNextRequestPdu pdu /\
      processPdu a pdu true false env = (res, env')) \/
     (Pdu_ request = SetRequestPdu pdu /\
      fst (checkCommunity a (Community request)) = true /\
      processPdu a pdu false true env = (res, env')) \/
     (Pdu_ request = SetRequestPdu pdu /\
      fst (checkCommunity a (Community request)) = false /\
      res = withError pdu 1 NoSuchName /\ env' = env)).
Proof.
  unfold ProcessMessage.
  destruct (Z.eqb_spec (Version request) 0) as [Hv|Hv]; [simpl|discriminate].
  destruct (checkCommunity a (Community request)) as [rw [e|]];
    [discriminate|].
  intros H; split; [exact Hv|split; [reflexivity|]].
  destruct (Pdu_ request) as [p|p|p|p|t|p|p|p]; try discriminate;
    unfold bind, ret in H.
  - destruct (processPdu a p false false env) as [res env1] eqn:E.
    injection H as <- <-; exists p, res; auto.
  - destruct (processPdu a p true false env) as [res env1] eqn:E.
    injection H as <- <-; exists p, res; auto 6.
  - destruct rw.
    + destruct (processPdu a p false true env) as [res env1] eqn:E.
      injection H as <- <-; exists p, res; auto 8.
    + injection H as <- <-; exists p, (withError p 1 NoSuchName).
      split; [reflexivity|split; [reflexivity|]].
      right; right; right; auto.
Qed.

(** [ProcessMessage] drops a request, returning an error and no response,
    exactly when its version is not 0, or its community is neither of the
    agent's two, or its PDU is not a Get, GetNext or Set request; and a
    dropped request has changed nothing: no lookup, no accessor call. *)
Theorem ProcessMessage_drops_iff a request env :
  ((exists e, fst (ProcessMessage a request env) = inr e) <->
   Version request <> 0 \/
   (Community request <> public a /\ Community request <> private a) \/
   requestPdu (Pdu_ request) = None) /\
  (forall e env', ProcessMessage a request env = (inr e, env') -> env' = env).
Proof.
  pose proof (checkCommunity_fails a (Community request)) as Hc.
  unfold ProcessMessage.
  destruct (Z.eqb_spec (Version request) 0) as [Hv|Hv]; simpl.
  2:{ split; [split; [auto|intros _; eexists; reflexivity]|].
      now intros e env' [= _ <-]. }
  destruct (checkCommunity a (Community request)) as [rw [e|]]; simpl in Hc.
  { split; [split; [|intros _; eexists; reflexivity]|].
    - intros _; right; left; apply Hc; discriminate.
    - now intros e0 env' [= _ <-]. }
  assert (Hok : ~ (Community request <> public a /\
                   Community request <> private a))
    by (intros H; apply Hc in H; now apply H).
  assert (Hrun : forall p next isSet,
             let r := (res <- processPdu a p next isSet ;;
                       ret (@inl Message error (respond request res))) env in
             (forall e, fst r <> inr e) /\
             (forall e env', r <> (inr e, env'))).
  { intros p next isSet; unfold bind, ret.
    destruct (processPdu a p next isSet env) as [res env1]; simpl.
    split; intros; discriminate. }
  destruct (Pdu_ request) as [p|p|p|p|t|p|p|p]; simpl;
    try (split; [split; [auto|intros _; eexists; reflexivity]|];
         now intros e env' [= _ <-]).
  - destruct (Hrun p false false) as [H1 H2]; split.
    + split; [intros [e He]; now apply H1 in He|].
      intros [H|[H|H]]; [contradiction|contradiction|discriminate].
    + intros e env' H; now apply H2 in H.
  - destruct (Hrun p true false) as [H1 H2]; split.
    + split; [intros [e He]; now apply H1 in He|].
      intros [H|[H|H]]; [contradiction|contradiction|discriminate].
    + intros e env' H; now apply H2 in H.
  - destruct rw.
    + destruct (Hrun p false true) as [H1 H2]; split.
      * split; [intros [e He]; now apply H1 in He|].
        intros [H|[H|H]]; [contradiction|contradiction|discriminate].
      * intros e env' H; now apply H2 in H.
    + unfold ret; simpl; split.
      * split; [intros [e He]; discriminate|].
        intros [H|[H|H]]; [contradiction|contradiction|discriminate].
      * intros e env'; discriminate.
Qed.

(** The answer of [ProcessMessage] is the request's envelope around a
    GetResponse PDU: version 0, the community of the request, which is one
    of the agent's two. *)
Theorem ProcessMessage_answer_envelope a request env response env' :
  ProcessMessage a request env = (inl response, env') ->
  Version response = 0 /\
  Community response = Community request /\
  (Community request = public a \/ Community request = private a) /\
  exists res, Pdu_ response = GetResponsePdu res /\
              List.length (Variables res)
              = match requestPdu (Pdu_ request) with
                | Some pdu => List.length (Variables pdu)
                | None => O
                end.
Proof.
  intros H.
  destruct (ProcessMessage_answer_inv _ _ _ _ _ H)
    as (Hv & Hc & pdu & res & Hp & -> & Hrun).
  split; [exact Hv|split; [reflexivity|split]].
  - destruct (String.eqb_spec (Community request) (public a)); [now left|].
    destruct (String.eqb_spec (Community request) (private a)); [now right|].
    exfalso; apply (proj2 (checkCommunity_fails a (Community request)));
      auto.
  - exists res; split; [reflexivity|]; rewrite Hp.
    assert (Hlen : forall next isSet env1,
               processPdu a pdu next isSet env = (res, env1) ->
               List.length (Variables res) = List.length (Variables pdu)).
    { intros next isSet env1 E.
      destruct (bindings_outcome a next isSet (Variables pdu) (world env))
        as [(out & w1 & Hall)
           |(pre & v & post & out & w1 & st & Hvars & Hpre & Hf)].
      - destruct (processPdu_all_succeed a pdu next isSet env out w1 Hall)
          as (env2 & _ & E2).
        rewrite E in E2; injection E2 as -> _.
        destruct isSet; [reflexivity|simpl].
        clear -Hall; induction Hall; simpl; auto.
      - destruct (processPdu_first_failure a pdu next isSet env _ _ _ _ _ _
                    Hvars Hpre Hf) as [env2 E2].
        rewrite E in E2; injection E2 as -> _; reflexivity. }
    destruct Hrun as [[_ E]|[[_ E]|[(_ & _ & E)|(_ & _ & -> & _)]]];
      eauto.
Qed.

End DispatcherCases.

(** ** Datagrams *)

Section Datagrams.

Context {World : Type}.
Context (Decode : list Byte.byte -> (Message * list Byte.byte) + error).
Context (Encode : Message -> list Byte.byte + error).
Implicit Types (a : Agent World) (env : Env World) (request : Message).

(** [decodeMessage] gives a message exactly when [Decode] succeeds and
    leaves no byte over. *)
Lemma decodeMessage_inl data msg :
  decodeMessage Decode data = inl msg <-> Decode data = inl (msg, []).
Proof.
  unfold decodeMessage.
  destruct (Decode data) as [[m remaining]|e].
  - destruct remaining as [|b remaining]; simpl.
    + split; intros [= ->]; reflexivity.
    + split; [discriminate|intros [= _ ?]; discriminate].
  - split; discriminate.
Qed.

(** [ProcessDatagram] is three stages in a row: [decodeMessage], then
    [ProcessMessage] on the decoded request, then [encodeMessage] on the
    response; the first error ends it. *)
Theorem ProcessDatagram_stages a requestBytes env :
  ProcessDatagram Decode Encode a requestBytes env =
  match decodeMessage Decode requestBytes with
  | inr e => (inr e, env)
  | inl request =>
      let '(r, env') := ProcessMessage a request env in
      (match r with
       | inl response => encodeMessage Encode response
       | inr e => inr e
       end, env')
  end.
Proof.
  unfold ProcessDatagram, decodeMessage, encodeMessage.
  destruct (Decode requestBytes) as [[request remaining]|e]; [|reflexivity].
  destruct (0 <? Z.of_nat (List.length remaining)); [reflexivity|].
  unfold bind, ret.
  destruct (ProcessMessage a request env) as [[response|e] env'];
    reflexivity.
Qed.

(** Response bytes come out of [ProcessDatagram] only for a datagram that
    decodes with no byte left over to a request [ProcessMessage] answers,
    and they are the encoding of that answer. *)
Theorem ProcessDatagram_bytes_inv a requestBytes env out env' :
  ProcessDatagram Decode Encode a requestBytes env = (inl out, env') ->
  exists request response,
    Decode requestBytes = inl (request, []) /\
    ProcessMessage a request env = (inl response, env') /\
    Encode response = inl out.
Proof.
  rewrite ProcessDatagram_stages.
  destruct (decodeMessage Decode requestBytes) as [request|e] eqn:Hd;
    [|discriminate].
  apply decodeMessage_inl in Hd.
  destruct (ProcessMessage a request env) as [[response|e] env1] eqn:Hrun;
    [|discriminate].
  unfold encodeMessage; intros [= HE <-].
  now exists request, response.
Qed.

(** A datagram the codec rejects, or one with bytes left over after the
    message, is dropped before the agent is consulted: an error, no bytes,
    and neither world nor trace changed, whatever the message says. *)
Theorem ProcessDatagram_undecodable a requestBytes env :
  (forall request, Decode requestBytes <> inl (request, [])) ->
  exists e, ProcessDatagram Decode Encode a requestBytes env = (inr e, env).
Proof.
  intros Hbad; rewrite ProcessDatagram_stages.
  destruct (decodeMessage Decode requestBytes) as [request|e] eqn:Hd.
  - apply decodeMessage_inl in Hd; now apply Hbad in Hd.
  - now exists e.
Qed.

(** The two revisions of [ProcessDatagram] do the same on every datagram
    that does not decode to a version 1 message: the revision that
    dispatches by itself differs only in letting version 1 through. *)
Theorem ProcessDatagram_revisions_agree a requestBytes env :
  (forall request remaining,
     Decode requestBytes = inl (request, remaining) ->
     Version request <> 1) ->
  DatagramOnly.ProcessDatagram Decode Encode a requestBytes env =
  ProcessDatagram Decode Encode a requestBytes env.
Proof.
  intros Hv; rewrite ProcessDatagram_stages.
  unfold DatagramOnly.ProcessDatagram.
  destruct (decodeMessage Decode requestBytes) as [request|e] eqn:Hd;
    [|reflexivity].
  apply decodeMessage_inl in Hd; apply Hv in Hd.
  unfold ProcessMessage.
  destruct (Z.eqb_spec (Version request) 1) as [|_]; [contradiction|].
  rewrite andb_true_r.
  destruct (negb (Version request =? 0)); [reflexivity|].
  destruct (checkCommunity a (Community request)) as [rw [e|]];
    [reflexivity|].
  destruct (Pdu_ request) as [p|p|p|p|t|p|p|p]; try reflexivity;
    unfold bind, ret.
  - destruct (processPdu a p false false env); reflexivity.
  - destruct (processPdu a p true false env); reflexivity.
  - destruct rw; [|reflexivity].
    destruct (processPdu a p false true env); reflexivity.
Qed.

(** On a version 1 message the revisions part: [ProcessDatagram] over
    [ProcessMessage] drops it, the self-dispatching revision treats it as
    it treats version 0, answering with version 1 in the envelope. *)
Theorem ProcessDatagram_revisions_differ a requestBytes env request :
  Decode requestBytes = inl (request, []) ->
  Version request = 1 ->
  (exists e, ProcessDatagram Decode Encode a requestBytes env = (inr e, env)) /\
  DatagramOnly.ProcessDatagram Decode Encode a requestBytes env =
  (let '(r, env') :=
     ProcessMessage a {| Version := 0;
                         Community := Community request;
                         Pdu_ := Pdu_ request |} env in
   (match r with
    | inl response =>
        Encode {| Version := 1;
                  Community := Community response;
                  Pdu_ := Pdu_ response |}
    | inr e => inr e
    end, env')).
Proof.
  intros Hd Hv; split.
  - rewrite ProcessDatagram_stages.
    rewrite (proj2 (decodeMessage_inl _ _) Hd).
    unfold ProcessMessage; rewrite Hv; simpl.
    eexists; reflexivity.
  - unfold DatagramOnly.ProcessDatagram.
    rewrite (proj2 (decodeMessage_inl _ _) Hd).
    unfold ProcessMessage, encodeMessage, respond; simpl.
    replace (Version request =? 0) with false
      by (symmetry; apply Z.eqb_neq; lia).
    replace (Version request =? 1) with true
      by (symmetry; apply Z.eqb_eq; exact Hv).
    simpl.
    destruct (checkCommunity a (Community request)) as [rw [e|]];
      [reflexivity|].
    destruct (Pdu_ request) as [p|p|p|p|t|p|p|p]; try reflexivity;
      unfold bind, ret.
    + destruct (processPdu a p false false env); simpl; now rewrite Hv.
    + destruct (processPdu a p true false env); simpl; now rewrite Hv.
    + destruct rw; [|simpl; now rewrite Hv].
      destruct (processPdu a p false true env); simpl; now rewrite Hv.
Qed.

End Datagrams.

(** ** Communities *)

Section Communities.

Context {World : Type}.
Implicit Types (a : Agent World) (env : Env World) (request : Message).

(** The check grants writing exactly to the write community; so when the
    two communities are one string, every accepted request may write, and a
    Set under that community runs the setters instead of being refused. *)
Theorem same_communities_grant_write a :
  (forall community,
     fst (checkCommunity a community) = true <-> community = private a) /\
  (public a = private a ->
   forall request pdu env,
     Version request = 0 -> Community request = public a ->
     Pdu_ request = SetRequestPdu pdu ->
     ProcessMessage a request env =
     (let '(res, env') := processPdu a pdu false true env in
      (inl (respond request res), env'))).
Proof.
  split.
  - intros community; unfold checkCommunity.
    destruct (String.eqb_spec community (public a));
      destruct (String.eqb_spec community (private a)); simpl;
      split; auto; discriminate.
  - intros Hsame request pdu env Hv Hc Hp; unfold ProcessMessage.
    replace (Version request =? 0) with true by (symmetry; now apply Z.eqb_eq).
    rewrite Hc, Hsame, checkCommunity_private, Hp; simpl.
    unfold bind, ret; reflexivity.
Qed.

End Communities.

(** ** What the processor does to the world, and which calls it makes *)

Section ProcessorEffects.

Context {World : Type}.
Implicit Types (a : Agent World) (h : managedObject World).
Implicit Types (env : Env World) (res pdu : Pdu).

Lemma call_access_trace h (isSet : bool) (v : VarBind) env :
  (if isSet then callSet h (Value_ v) else callGet h) env =
  (fst (access h isSet v (world env)),
   {| world := snd (access h isSet v (world env));
      calls := calls env ++
               [if isSet then EvSet (oid h) (Value_ v) else EvGet (oid h)] |}).
Proof.
  destruct isSet; unfold callSet, callGet, access, bind, emit, inWorld, ret;
    simpl.
  - destruct (set h (oid h) (Value_ v) (world env)) as [err w']; reflexivity.
  - destruct (get h (oid h) (world env)) as [r w']; reflexivity.
Qed.

(** The loop after a prefix of succeeding bindings, with the very world
    and trace it has arrived at. *)
Lemma loop_prefix_env a (next isSet : bool) w pre out w1 :
  allSucceed a next isSet w pre out w1 ->
  forall env res i rest variables, world env = w ->
    processPdu_loop a next isSet res i (pre ++ rest) variables env =
    processPdu_loop a next isSet res (i + Z.of_nat (List.length pre)) rest
      (if negb isSet then variables ++ out else variables)
      {| world := w1;
         calls := calls env ++ successTrace next isSet pre out |}.
Proof.
  induction 1 as [w|w v vs h value w1 out w2 Hh Hacc _ IH];
    intros env res i rest variables Hw.
  - destruct env as [w0 tr]; simpl in *; subst w0.
    rewrite Z.add_0_r, !app_nil_r.
    destruct isSet; reflexivity.
  - rewrite <- app_comm_cons, loop_cons; cbv zeta; rewrite Hh.
    rewrite call_access_trace; cbn [world calls fst snd].
    rewrite Hw, Hacc; cbn [fst snd].
    rewrite IH by reflexivity; cbn [calls].
    f_equal.
    + simpl List.length; lia.
    + destruct isSet; simpl; [reflexivity|now rewrite <- app_assoc].
    + f_equal; simpl; now rewrite <- !app_assoc.
Qed.

Lemma allSucceed_length a (next isSet : bool) w vs out w1 :
  allSucceed a next isSet w vs out w1 -> List.length out = List.length vs.
Proof. induction 1; simpl; auto. Qed.

(** When every binding succeeds the processor has called, for each
    binding in request order, one lookup of the requested name and then
    once the accessor of the resolved object, on the resolved OID and, for
    a Set, with the value of the request; and it leaves the world the last
    accessor left. *)
Theorem success_calls_each_accessor_once a pdu (next isSet : bool) env out w1 :
  allSucceed a next isSet (world env) (Variables pdu) out w1 ->
  snd (processPdu a pdu next isSet env) =
  {| world := w1;
     calls := calls env ++ successTrace next isSet (Variables pdu) out |} /\
  List.length (successTrace next isSet (Variables pdu) out)
  = (2 * List.length (Variables pdu))%nat.
Proof.
  intros Hall; split.
  - unfold processPdu.
    pose proof (loop_prefix_env a next isSet _ _ _ _ Hall env pdu 0 [] []
                  eq_refl) as Hrun.
    rewrite app_nil_r in Hrun; rewrite Hrun.
    destruct isSet; reflexivity.
  - clear -Hall; induction Hall; simpl; [reflexivity|].
    rewrite IHHall; lia.
Qed.

(** When the binding after [pre] is the first to fail, the processor stops
    there.  What the accessors of the bindings before it did stays done (a
    failed Set is not undone): the world is the one they left, or the one
    the failing accessor left; and the trace ends with the failing
    binding: no binding after it is looked up or accessed. *)
Theorem failure_keeps_earlier_effects a pdu (next isSet : bool) env
    pre v post out w1 :
  Variables pdu = pre ++ v :: post ->
  allSucceed a next isSet (world env) pre out w1 ->
  (getManagedObject a (Name v) next = None ->
   snd (processPdu a pdu next isSet env) =
   {| world := w1;
      calls := calls env ++ successTrace next isSet pre out
                         ++ [EvLookup (Name v) next] |}) /\
  (forall h value err w2,
     getManagedObject a (Name v) next = Some h ->
     access h isSet v w1 = ((value, Some err), w2) ->
     snd (processPdu a pdu next isSet env) =
     {| world := w2;
        calls := calls env ++ successTrace next isSet pre out
                           ++ bindingTrace next isSet v
                                (mkVariable (oid h) value) |}).
Proof.
  intros Hvars Hpre; unfold processPdu; rewrite Hvars.
  rewrite (loop_prefix_env a next isSet _ _ _ _ Hpre env pdu 0 (v :: post) []
             eq_refl).
  rewrite loop_cons; cbv zeta; cbn [world calls].
  split.
  - intros ->; simpl; now rewrite <- app_assoc.
  - intros h value err w2 -> Hacc.
    rewrite call_access_trace; cbn [world calls fst snd].
    rewrite Hacc; simpl; now rewrite <- !app_assoc.
Qed.

(** Nothing after the first failing binding matters to what the processor
    does: two requests that agree up to and including that binding leave
    the same world and the same trace and report the same status and
    index. *)
Theorem failure_stops_processing a pdu pdu' (next isSet : bool) env
    pre v post post' out w1 st :
  Variables pdu = pre ++ v :: post ->
  Variables pdu' = pre ++ v :: post' ->
  allSucceed a next isSet (world env) pre out w1 ->
  failsWith a next isSet w1 v st ->
  snd (processPdu a pdu next isSet env) =
  snd (processPdu a pdu' next isSet env) /\
  ErrorStatus (fst (processPdu a pdu next isSet env)) =
  ErrorStatus (fst (processPdu a pdu' next isSet env)) /\
  ErrorIndex (fst (processPdu a pdu next isSet env)) =
  ErrorIndex (fst (processPdu a pdu' next isSet env)).
Proof.
  intros Hvars Hvars' Hpre Hfail.
  destruct (failure_keeps_earlier_effects a pdu next isSet env _ _ _ _ _
              Hvars Hpre) as [Hnone Hsome].
  destruct (failure_keeps_earlier_effects a pdu' next isSet env _ _ _ _ _
              Hvars' Hpre) as [Hnone' Hsome'].
  destruct (processPdu_first_failure a pdu next isSet env _ _ _ _ _ _
              Hvars Hpre Hfail) as [env1 E].
  destruct (processPdu_first_failure a pdu' next isSet env _ _ _ _ _ _
              Hvars' Hpre Hfail) as [env1' E'].
  split; [|rewrite E, E'; simpl; auto].
  destruct Hfail as [Hh|h value e w' Hh Hacc|h value msg w' Hh Hacc].
  - now rewrite Hnone, Hnone'.
  - now rewrite (Hsome _ _ _ _ Hh Hacc), (Hsome' _ _ _ _ Hh Hacc).
  - now rewrite (Hsome _ _ _ _ Hh Hacc), (Hsome' _ _ _ _ Hh Hacc).
Qed.

(** The kinds of call a run makes: lookups, and getters only when reading,
    setters only when writing. *)
Lemma loop_call_kinds a (next isSet : bool) vs :
  forall res i variables env,
  exists tr,
    calls (snd (processPdu_loop a next isSet res i vs variables env))
    = calls env ++ tr /\
    existsb (if isSet then isGetCall else isSetCall) tr = false.
Proof.
  induction vs as [|v vs IH]; intros res i variables env.
  - exists []; simpl; rewrite app_nil_r; destruct isSet; auto.
  - rewrite loop_cons; cbv zeta.
    destruct (getManagedObject a (Name v) next) as [h|].
    + rewrite call_access_trace; cbn [fst snd].
      destruct (access h isSet v _) as [[value [e|]] w'] eqn:Hacc;
        cbn [fst snd].
      * eexists; split; [simpl; rewrite <- app_assoc; reflexivity|].
        destruct isSet; reflexivity.
      * edestruct IH as (tr & -> & Hk); cbn [calls].
        eexists; split; [rewrite <- !app_assoc; reflexivity|].
        simpl; destruct isSet; simpl; exact Hk.
    + eexists; split; [reflexivity|]; destruct isSet; reflexivity.
Qed.

(** A Get or GetNext PDU never has a setter called, and a Set PDU never a
    getter, whatever the outcome; the trace only grows. *)
Theorem processPdu_call_kinds a pdu (next isSet : bool) env :
  exists tr,
    calls (snd (processPdu a pdu next isSet env)) = calls env ++ tr /\
    existsb (if isSet then isGetCall else isSetCall) tr = false.
Proof. apply loop_call_kinds. Qed.

(** No request under a community that the check does not grant writing
    makes the agent call a setter: whatever its PDU, the calls
    [ProcessMessage] adds to the trace contain no setter call. *)
Theorem read_community_never_sets a (request : Message) env :
  fst (checkCommunity a (Community request)) = false ->
  exists tr,
    calls (snd (ProcessMessage a request env)) = calls env ++ tr /\
    existsb isSetCall tr = false.
Proof.
  intros Hrw.
  assert (Hnone : exists tr, calls env = calls env ++ tr /\
                             existsb isSetCall tr = false)
    by (exists []; now rewrite app_nil_r).
  unfold ProcessMessage.
  destruct (negb (Version request =? 0)); [exact Hnone|].
  destruct (checkCommunity a (Community request)) as [rw [e|]];
    [exact Hnone|].
  simpl in Hrw; subst rw.
  destruct (Pdu_ request) as [p|p|p|p|t|p|p|p]; try exact Hnone;
    unfold bind, ret.
  - destruct (processPdu_call_kinds a p false false env) as (tr & E & Hk).
    destruct (processPdu a p false false env); now exists tr.
  - destruct (processPdu_call_kinds a p true false env) as (tr & E & Hk).
    destruct (processPdu a p true false env); now exists tr.
Qed.

Lemma lookup_In a (q : Oid) (next : bool) h :
  getManagedObject a q next = Some h -> In h (handlers a).
Proof.
  unfold getManagedObject; induction (handlers a) as [|x hs IH]; simpl;
    [discriminate|].
  destruct (_ || _); [intros [= ->]; now left|].
  destruct (_ && _); [discriminate|].
  intros H; right; auto.
Qed.

(** With getters that leave the world alone, a Get or GetNext PDU leaves
    it alone too, whatever the outcome. *)
Theorem pure_getters_keep_world a pdu (next : bool) env :
  (forall h, In h (handlers a) ->
     forall o w, snd (get h o w) = w) ->
  world (snd (processPdu a pdu next false env)) = world env.
Proof.
  intros Hpure; unfold processPdu.
  generalize 0 (@nil VarBind); revert env.
  induction (Variables pdu) as [|v vs IH]; intros env i variables;
    [reflexivity|].
  rewrite loop_cons; cbv zeta.
  destruct (getManagedObject a (Name v) next) as [h|] eqn:Hh; [|reflexivity].
  pose proof (call_access_trace h false v
                {| world := world env;
                   calls := calls env ++ [EvLookup (Name v) next] |}) as Hc.
  cbv iota in Hc; rewrite Hc; cbn [fst snd world]; unfold access.
  pose proof (Hpure h (lookup_In _ _ _ _ Hh) (oid h) (world env)) as Hw.
  destruct (get h (oid h) (world env)) as [[value [e|]] w']; simpl in Hw;
    subst w'; cbn [fst snd]; [reflexivity|].
  now rewrite IH.
Qed.

End ProcessorEffects.

(** ** The shape of every response *)

Section ResponseShape.

Context {World : Type}.
Implicit Types (a : Agent World) (h : managedObject World).
Implicit Types (env : Env World) (res pdu : Pdu).

(** Whatever the agent and the request, the response of [processPdu] has
    the Id of the request and as many bindings as the request; and either
    every binding succeeded and the error fields are those of the request,
    or the response is the request with an ErrorIndex that designates one
    of its bindings, the first that failed. *)
Theorem processPdu_response_shape a pdu (next isSet : bool) env :
  let res := fst (processPdu a pdu next isSet env) in
  Id res = Id pdu /\
  List.length (Variables res) = List.length (Variables pdu) /\
  ((exists out w1,
      allSucceed a next isSet (world env) (Variables pdu) out w1 /\
      ErrorStatus res = ErrorStatus pdu /\ ErrorIndex res = ErrorIndex pdu) \/
   (exists pre v post out w1 st,
      Variables pdu = pre ++ v :: post /\
      allSucceed a next isSet (world env) pre out w1 /\
      failsWith a next isSet w1 v st /\
      Variables res = Variables pdu /\
      ErrorStatus res = st /\
      ErrorIndex res = Z.of_nat (List.length pre) + 1 /\
      1 <= ErrorIndex res <= Z.of_nat (List.length (Variables pdu)))).
Proof.
  intros res; subst res.
  split; [apply processPdu_loop_Id|].
  destruct (bindings_outcome a next isSet (Variables pdu) (world env))
    as [(out & w1 & Hall)
       |(pre & v & post & out & w1 & st & Hvars & Hpre & Hf)].
  - destruct (processPdu_all_succeed a pdu next isSet env out w1 Hall)
      as (env1 & _ & ->).
    split.
    + destruct isSet; simpl; [reflexivity|].
      now apply allSucceed_length in Hall.
    + left; exists out, w1; destruct isSet; simpl; auto.
  - destruct (processPdu_first_failure a pdu next isSet env _ _ _ _ _ _
                Hvars Hpre Hf) as [env1 ->]; simpl.
    split; [reflexivity|].
    right; exists pre, v, post, out, w1, st.
    repeat split; auto; try lia.
    rewrite Hvars, length_app; simpl; lia.
Qed.

Lemma lookup_relation a (q : Oid) (next : bool) h :
  getManagedObject a q next = Some h ->
  if next then Cmp q (oid h) < 0 else oid h = q.
Proof.
  unfold getManagedObject; induction (handlers a) as [|x hs IH]; simpl;
    [discriminate|].
  destruct next; simpl.
  - destruct (Z.ltb_spec (Cmp q (oid x)) 0); [now intros [= <-]|exact IH].
  - rewrite orb_false_r.
    destruct (Z.eqb_spec (Cmp q (oid x)) 0) as [E|_].
    + intros [= <-]; symmetry; now apply Cmp_eq.
    + destruct (Cmp q (oid x) <? 0); [discriminate|exact IH].
Qed.

(** In a successful response a Get names, binding by binding, the very
    OIDs that were requested, and a GetNext names OIDs strictly above the
    requested ones: a walk by GetNext always advances. *)
Theorem get_echoes_getnext_advances a pdu (next : bool) env out w1 :
  allSucceed a next false (world env) (Variables pdu) out w1 ->
  Forall2 (fun request answer =>
             if next then Cmp (Name request) (Name answer) < 0
             else Name answer = Name request)
          (Variables pdu)
          (Variables (fst (processPdu a pdu next false env))).
Proof.
  intros Hall.
  destruct (processPdu_all_succeed a pdu next false env out w1 Hall)
    as (env1 & _ & ->); simpl.
  clear env1; induction Hall as [|w v vs h value w' out w2 Hh _ _ IH];
    constructor; [|exact IH].
  apply lookup_relation in Hh; exact Hh.
Qed.

End ResponseShape.

(** ** More on the registry *)

Section RegistryMore.

Context {World : Type}.
Implicit Types (h x : managedObject World) (hs : list (managedObject World)).
Implicit Types (a : Agent World) (cs : list (SetupCall World)).

Lemma next_of_entry hs :
  ascending hs ->
  forall i h, nth_error hs i = Some h ->
    getManagedObject_loop hs (oid h) true = nth_error hs (S i).
Proof.
  induction hs as [|x hs IH]; intros Hs i h Hi; [now destruct i|].
  apply ascending_inv in Hs as [Hs Hx].
  rewrite loop_next_cons.
  destruct i as [|i]; simpl in Hi.
  - injection Hi as ->; rewrite Cmp_refl; simpl.
    destruct hs as [|y hs]; [reflexivity|].
    rewrite loop_next_cons.
    destruct (Z.ltb_spec (Cmp (oid h) (oid y)) 0) as [|Hge]; [reflexivity|].
    specialize (Hx y (or_introl eq_refl)); lia.
  - assert (Hlt : Cmp (oid x) (oid h) < 0)
      by (apply Hx; eapply nth_error_In; eassumption).
    rewrite (Cmp_flip (oid h) (oid x)) in Hlt.
    destruct (Z.ltb_spec (Cmp (oid h) (oid x)) 0); [lia|].
    now apply IH.
Qed.

(** Walking the registry: from the OID of the entry at position i,
    successor lookup gives the entry at position i+1, and nothing from the
    last entry; from any OID below the first entry it gives the first.  So
    repeated GetNext visits every registered object once, in ascending
    order, and then stops. *)
Theorem getnext_walks_registry cs (i : nat) h :
  nth_error (handlers (setup cs)) i = Some h ->
  getManagedObject (setup cs) (oid h) true
  = nth_error (handlers (setup cs)) (S i) /\
  (forall q, i = O -> Cmp q (oid h) < 0 ->
     getManagedObject (setup cs) q true = Some h).
Proof.
  intros Hi; split.
  - apply next_of_entry; [apply setup_ascending|exact Hi].
  - intros q -> Hq; unfold getManagedObject.
    destruct (handlers (setup cs)) as [|x hs]; [discriminate|].
    injection Hi as ->; rewrite loop_next_cons.
    destruct (Z.ltb_spec (Cmp q (oid h)) 0); [reflexivity|lia].
Qed.

(** A registration succeeds exactly when it brings a getter and an OID
    not registered before; the registry holds one entry for each distinct
    registered OID. *)
Theorem registration_succeeds_iff cs (name : Oid)
    (getter : option (Getter World)) (setter : option (Setter World)) :
  (snd (AddRwManagedObject (setup cs) name getter setter) = None <->
   getter <> None /\ ~ In name (registeredOids cs)) /\
  NoDup (map oid (handlers (setup cs))) /\
  (forall o, In o (map oid (handlers (setup cs))) <->
             In o (registeredOids cs)).
Proof.
  pose proof (setup_ascending cs) as Hs.
  split; [|split; [now apply ascending_NoDup|apply setup_oids]].
  destruct (AddRwManagedObject_cases (setup cs) name getter setter)
    as [(e & -> & Hwhy)|(g & -> & Hnone & ->)]; simpl.
  - split; [discriminate|intros [Hg Hnew]].
    destruct Hwhy as [?|[h Hh]]; [contradiction|].
    apply exact_found in Hh as [Hin <-].
    destruct Hnew; apply setup_oids; now apply in_map.
  - split; [intros _|reflexivity].
    split; [discriminate|].
    rewrite <- setup_oids; now apply exact_none.
Qed.

(** Registering and looking up: after a successful registration the exact
    lookup of the new OID returns the entry just made, with the getter
    given and the setter given (the not-writable one for none); the exact
    lookup of every other OID returns what it returned before; the
    registry has one entry more and the communities are untouched. *)
Theorem registration_then_lookup cs (name : Oid) (g : Getter World)
    (setter : option (Setter World)) :
  ~ In name (registeredOids cs) ->
  AddRwManagedObject (setup cs) name (Some g) setter
  = (setup (cs ++ [CallAddRw name (Some g) setter]), None) /\
  getManagedObject (setup (cs ++ [CallAddRw name (Some g) setter])) name false
  = Some {| oid := name; get := g;
            set := match setter with
                   | None => notWritableSetter
                   | Some s => s
                   end |} /\
  (forall q, q <> name ->
     getManagedObject (setup (cs ++ [CallAddRw name (Some g) setter])) q false
     = getManagedObject (setup cs) q false) /\
  List.length (handlers (setup (cs ++ [CallAddRw name (Some g) setter])))
  = S (List.length (handlers (setup cs))) /\
  public (setup (cs ++ [CallAddRw name (Some g) setter])) = public (setup cs) /\
  private (setup (cs ++ [CallAddRw name (Some g) setter])) = private (setup cs).
Proof.
  intros Hnew.
  pose proof (setup_ascending cs) as Hs.
  pose proof (setup_ascending (cs ++ [CallAddRw name (Some g) setter])) as Hs'.
  rewrite setup_snoc in *; cbn [applyCall] in *.
  destruct (AddRwManagedObject_cases (setup cs) name (Some g) setter)
    as [(e & _ & [?|[h Hh]])|(g' & [= <-] & Hnone & E)]; [discriminate| |].
  { apply exact_found in Hh as [Hin <-].
    destruct Hnew; apply setup_oids; now apply in_map. }
  rewrite E in Hs' |- *; cbn [fst snd handlers public private] in *.
  set (h0 := {| oid := name; get := g; set := _ |}) in *.
  assert (Hp : Permutation (sort_Sort (handlers (setup cs) ++ [h0]))
                 (h0 :: handlers (setup cs))).
  { rewrite sort_Sort_perm; symmetry; apply Permutation_cons_append. }
  split; [reflexivity|split; [|split; [|split; [|split; reflexivity]]]].
  - unfold getManagedObject; simpl.
    destruct (exact_complete _ name Hs') as [h Hh].
    { apply (Permutation_in _ (Permutation_sym (Permutation_map oid Hp))).
      now left. }
    rewrite Hh; f_equal.
    apply exact_found in Hh as [Hin E'].
    apply (ascending_unique _ _ _ Hs' Hin); [|exact E'].
    apply (Permutation_in _ (Permutation_sym Hp)); now left.
  - intros q Hq; unfold getManagedObject; simpl.
    destruct (getManagedObject_loop (handlers (setup cs)) q false)
      as [h|] eqn:Hold.
    + apply exact_found in Hold as [Hin E'].
      destruct (exact_complete _ q Hs') as [h' Hh'].
      { apply (Permutation_in _ (Permutation_sym (Permutation_map oid Hp))).
        right; rewrite <- E'; now apply in_map. }
      rewrite Hh'; f_equal.
      apply exact_found in Hh' as [Hin' E''].
      apply (ascending_unique _ _ _ Hs' Hin'); [|congruence].
      apply (Permutation_in _ (Permutation_sym Hp)); now right.
    + apply exact_none; [exact Hs'|].
      apply (exact_none _ _ Hs) in Hold.
      intros Hin; apply (Permutation_in _ (Permutation_map oid Hp)) in Hin.
      destruct Hin as [Hin|Hin]; [now symmetry in Hin|contradiction].
  - now rewrite (Permutation_length Hp).
Qed.

Lemma entries_app cs cs' : entries (cs ++ cs') = entries cs ++ entries cs'.
Proof.
  induction cs as [|c cs IH]; simpl; [reflexivity|].
  destruct (entryOf c); simpl; now rewrite IH.
Qed.

Lemma entryOf_offers (c : SetupCall World) :
  option_map oid (entryOf c) = offers c.
Proof. destruct c as [? ?|? [g|]|? [g|] ?]; reflexivity. Qed.

Lemma entries_perm cs cs' :
  Permutation cs cs' -> Permutation (entries cs) (entries cs').
Proof.
  induction 1 as [|c cs cs' _ IH|c d cs|cs1 cs2 cs3 _ IH1 _ IH2]; simpl.
  - reflexivity.
  - destruct (entryOf c); [now constructor|exact IH].
  - destruct (entryOf c), (entryOf d); try reflexivity; apply perm_swap.
  - now transitivity (entries cs2).
Qed.

Lemma registeredOids_entries cs : registeredOids cs = map oid (entries cs).
Proof.
  induction cs as [|c cs IH]; simpl; [reflexivity|].
  rewrite <- entryOf_offers; destruct (entryOf c); simpl; now rewrite IH.
Qed.

(** When no OID is registered twice, the registry holds exactly the
    entries the calls made. *)
Lemma setup_entries cs :
  NoDup (registeredOids cs) -> Permutation (handlers (setup cs)) (entries cs).
Proof.
  induction cs as [|c cs IH] using rev_ind; intros Hnd; [reflexivity|].
  rewrite registeredOids_app in Hnd.
  rewrite setup_snoc, entries_app.
  pose proof (NoDup_app_remove_r _ _ Hnd) as Hnd1.
  specialize (IH Hnd1).
  assert (Hstep : forall name g setter,
             offers c = Some name ->
             Permutation
               (handlers (fst (AddRwManagedObject (setup cs) name (Some g)
                                 setter)))
               (handlers (setup cs) ++
                [{| oid := name; get := g;
                    set := match setter with
                           | None => notWritableSetter
                           | Some s => s
                           end |}])).
  { intros name g setter Hoff.
    assert (Hnew : ~ In name (registeredOids cs)).
    { intros Hin; simpl in Hnd; rewrite Hoff in Hnd.
      apply NoDup_remove_2 in Hnd; apply Hnd.
      rewrite app_nil_r; exact Hin. }
    destruct (AddRwManagedObject_cases (setup cs) name (Some g) setter)
      as [(e & _ & [?|[h Hh]])|(g' & [= <-] & _ & ->)]; [discriminate| |].
    - apply exact_found in Hh as [Hin <-].
      destruct Hnew; apply setup_oids; now apply in_map.
    - simpl; apply sort_Sort_perm. }
  destruct c as [pub priv|name [g|]|name [g|] setter]; simpl;
    rewrite ?app_nil_r; try exact IH.
  - unfold AddRoManagedObject; rewrite (Hstep name g None eq_refl).
    now apply Permutation_app_tail.
  - rewrite (Hstep name g setter eq_refl).
    now apply Permutation_app_tail.
Qed.

(** The order of the setup calls does not matter to the registry: when no
    OID is registered twice, any reordering of the calls builds the same
    handler slice, the sorted slice of the entries the calls made. *)
Theorem registration_order_irrelevant cs cs' :
  Permutation cs cs' -> NoDup (registeredOids cs) ->
  handlers (setup cs) = handlers (setup cs') /\
  handlers (setup cs) = sort_Sort (entries cs).
Proof.
  intros Hp Hnd.
  assert (Hnd' : NoDup (registeredOids cs')).
  { rewrite registeredOids_entries in *.
    apply (Permutation_NoDup (Permutation_map oid (entries_perm _ _ Hp)) Hnd). }
  split.
  - apply ascending_perm_eq; try apply setup_ascending.
    rewrite (setup_entries cs Hnd), (setup_entries cs' Hnd').
    now apply entries_perm.
  - apply sort_Sort_unique; [|now apply setup_entries|apply setup_ascending].
    now rewrite <- registeredOids_entries.
Qed.

End RegistryMore.

(** ** The sort interface *)

Section SortInterface.

Context {World : Type}.
Implicit Types (h : list (managedObject World)) (x y : managedObject World).

Lemma assign_length h (i : nat) x : List.length (assign h i x) = List.length h.
Proof.
  revert i; induction h as [|y h IH]; intros [|i]; simpl; auto.
Qed.

Lemma nth_error_assign h (i k : nat) x :
  nth_error (assign h i x) k =
  if (k =? i)%nat then option_map (fun _ => x) (nth_error h i)
  else nth_error h k.
Proof.
  revert i k; induction h as [|y h IH]; intros [|i] [|k]; simpl; auto.
  now destruct (k =? i)%nat.
Qed.

Lemma assign_perm h (i : nat) x y :
  nth_error h i = Some y -> Permutation (x :: h) (y :: assign h i x).
Proof.
  revert i; induction h as [|z h IH]; intros [|i]; simpl; try discriminate.
  - intros [= ->]; apply perm_swap.
  - intros Hi; rewrite perm_swap, (IH i Hi); apply perm_swap.
Qed.

Lemma index_Some h (i : Z) x :
  index h i = Some x <-> 0 <= i /\ nth_error h (Z.to_nat i) = Some x.
Proof.
  unfold index, Len.
  destruct (Z.leb_spec 0 i) as [Hi|Hi]; simpl.
  - destruct (Z.ltb_spec i (Z.of_nat (List.length h))) as [Hlt|Hge].
    + tauto.
    + split; [discriminate|intros [_ H]].
      assert (nth_error h (Z.to_nat i) <> None) by congruence.
      apply nth_error_Some in H0; lia.
  - split; [discriminate|lia].
Qed.

Lemma index_None h (i : Z) : index h i = None <-> ~ (0 <= i < Len h).
Proof.
  unfold index, Len.
  destruct (Z.leb_spec 0 i) as [Hi|Hi]; simpl.
  - destruct (Z.ltb_spec i (Z.of_nat (List.length h))) as [Hlt|Hge].
    + split; [|lia].
      intros H; apply nth_error_None in H; lia.
    + split; [lia|reflexivity].
  - split; [lia|reflexivity].
Qed.

(** [Swap] panics exactly on an index out of range; otherwise it exchanges
    the entries at the two positions and touches nothing else: the slice
    keeps its length and its entries, [Less] on the two positions is
    mirrored, and swapping again restores the slice. *)
Theorem Swap_exchanges h (i j : Z) :
  (Swap h i j = None <-> ~ (0 <= i < Len h /\ 0 <= j < Len h)) /\
  (forall h', Swap h i j = Some h' ->
     Permutation h' h /\ Len h' = Len h /\
     index h' i = index h j /\ index h' j = index h i /\
     (forall k, k <> i -> k <> j -> index h' k = index h k) /\
     LessAt h' i j = LessAt h j i /\
     Swap h' i j = Some h).
Proof.
  split.
  - unfold Swap.
    destruct (index h j) as [hj|] eqn:Hj.
    + destruct (index h i) as [hi|] eqn:Hi.
      * split; [discriminate|intros H; exfalso; apply H].
        split.
        -- destruct (index_None h i) as [_ Hn].
           destruct (Z.le_gt_cases 0 i), (Z.lt_ge_cases i (Len h)); try lia;
             rewrite Hn in Hi by lia; discriminate.
        -- destruct (index_None h j) as [_ Hn].
           destruct (Z.le_gt_cases 0 j), (Z.lt_ge_cases j (Len h)); try lia;
             rewrite Hn in Hj by lia; discriminate.
      * split; [intros _|reflexivity].
        apply index_None in Hi; tauto.
    + split; [intros _|reflexivity].
      apply index_None in Hj; tauto.
  - intros h'; unfold Swap.
    destruct (index h j) as [hj|] eqn:Hj; [|discriminate].
    destruct (index h i) as [hi|] eqn:Hi; [|discriminate].
    intros [= <-].
    apply index_Some in Hi as [Hi0 Hi], Hj as [Hj0 Hj].
    set (ni := Z.to_nat i) in *; set (nj := Z.to_nat j) in *.
    set (h1 := assign h ni hj).
    assert (Hpt : forall k, nth_error (assign h1 nj hi) k =
                    if (k =? nj)%nat then Some hi
                    else if (k =? ni)%nat then Some hj
                    else nth_error h k).
    { intros k; unfold h1; rewrite !nth_error_assign.
      destruct (Nat.eqb_spec k nj) as [->|Hk].
      - rewrite Nat.eqb_sym.
        destruct (Nat.eqb_spec ni nj) as [E|_];
          [rewrite Hi|rewrite Hj]; reflexivity.
      - destruct (Nat.eqb_spec k ni); [now rewrite Hi|reflexivity]. }
    assert (Hlen : Len (assign h1 nj hi) = Len h)
      by (unfold Len, h1; now rewrite !assign_length).
    assert (Hidx : forall k, index (assign h1 nj hi) k =
                     if k =? j then Some hi
                     else if k =? i then Some hj
                     else index h k).
    { intros k; unfold index at 1; rewrite Hlen.
      destruct (Z.eqb_spec k j) as [->|Hkj].
      - fold nj; rewrite Hpt, Nat.eqb_refl.
        destruct (Z.leb_spec 0 j); [|lia].
        destruct (Z.ltb_spec j (Len h)) as [|Hge]; [reflexivity|].
        assert (nth_error h nj <> None) by congruence.
        apply nth_error_Some in H0; unfold Len in Hge; lia.
      - destruct (Z.eqb_spec k i) as [->|Hki].
        + fold ni; rewrite Hpt, Nat.eqb_refl.
          destruct (Nat.eqb_spec ni nj) as [E|_]; [unfold ni, nj in E; lia|].
          destruct (Z.leb_spec 0 i); [|lia].
          destruct (Z.ltb_spec i (Len h)) as [|Hge]; [reflexivity|].
          assert (nth_error h ni <> None) by congruence.
          apply nth_error_Some in H0; unfold Len in Hge; lia.
        + unfold index.
          destruct (Z.leb_spec 0 k); [|reflexivity].
          destruct (Z.ltb_spec k (Len h)); [simpl|reflexivity].
          rewrite Hpt.
          destruct (Nat.eqb_spec (Z.to_nat k) nj) as [E|_];
            [unfold nj in E; lia|].
          destruct (Nat.eqb_spec (Z.to_nat k) ni) as [E|_];
            [unfold ni in E; lia|reflexivity]. }
    assert (Hi' : index h i = Some hi) by (apply index_Some; auto).
    assert (Hj' : index h j = Some hj) by (apply index_Some; auto).
    assert (Hsame : i = j -> hi = hj) by (intros ->; congruence).
    assert (Hperm : Permutation (assign h1 nj hi) h).
    { apply (Permutation_cons_inv (a := hj)).
      assert (H1 : nth_error h1 nj = Some hj).
      { unfold h1; rewrite nth_error_assign.
        destruct (Nat.eqb_spec nj ni); [now rewrite Hi|exact Hj]. }
      rewrite <- (assign_perm h1 nj hi hj H1).
      symmetry; unfold h1; apply assign_perm; exact Hi. }
    set (h' := assign h1 nj hi) in *.
    split; [exact Hperm|split; [exact Hlen|split; [|split; [|split; [|split]]]]].
    + rewrite Hidx, Z.eqb_refl, ?Hj'.
      destruct (Z.eqb_spec i j) as [E|_]; [now rewrite (Hsame E)|reflexivity].
    + now rewrite Hidx, Z.eqb_refl, ?Hi'.
    + intros k Hki Hkj; rewrite Hidx.
      destruct (Z.eqb_spec k j); [contradiction|].
      destruct (Z.eqb_spec k i); [contradiction|reflexivity].
    + unfold LessAt; rewrite !Hidx, !Z.eqb_refl, ?Hi', ?Hj'.
      destruct (Z.eqb_spec i j) as [E|_]; [now rewrite (Hsame E)|reflexivity].
    + unfold Swap; rewrite !Hidx, !Z.eqb_refl.
      assert (Hx : (if i =? j then Some hi else Some hj) = Some hj).
      { destruct (Z.eqb_spec i j) as [E|_]; [now rewrite (Hsame E)|auto]. }
      rewrite Hx.
      f_equal; apply nth_error_ext; intros k.
      fold ni nj; rewrite !nth_error_assign, !Hpt.
      destruct (Nat.eqb_spec k nj) as [->|Hk].
      * rewrite Nat.eqb_refl.
        destruct (Nat.eqb_spec nj ni) as [E|_]; simpl.
        -- rewrite E, Nat.eqb_refl; simpl.
           rewrite <- E; exact (eq_sym Hj).
        -- rewrite Nat.eqb_refl; simpl; exact (eq_sym Hj).
      * destruct (Nat.eqb_spec k ni) as [->|Hk'].
        -- destruct (Nat.eqb_spec ni nj); [contradiction|].
           rewrite Nat.eqb_refl; simpl; exact (eq_sym Hi).
        -- reflexivity.
Qed.

End SortInterface.

(** ** The text of an IP address *)

Lemma string_length_app (s t : string) :
  String.length (s ++ t)%string = (String.length s + String.length t)%nat.
Proof. induction s as [|c s IH]; simpl; auto. Qed.

Lemma fmt_d_noDot (b : Byte.byte) : noDot (fmt_d b) = true.
Proof. destruct b; reflexivity. Qed.

Lemma fmt_d_length (b : Byte.byte) :
  (1 <= String.length (fmt_d b) <= 3)%nat.
Proof. destruct b; simpl; lia. Qed.

Lemma fmt_d_inj (a b : Byte.byte) : fmt_d a = fmt_d b -> a = b.
Proof.
  unfold fmt_d; intros H.
  apply (f_equal NilZero.uint_of_string) in H.
  rewrite !NilZero.usu in H by (destruct a; discriminate || destruct b; discriminate).
  injection H as H.
  apply DecimalN.Unsigned.to_uint_inj in H.
  apply (f_equal Byte.of_N) in H; rewrite !Byte.of_to_N in H.
  now injection H.
Qed.

Lemma split_at_dot (s1 s2 t1 t2 : string) :
  noDot s1 = true -> noDot s2 = true ->
  (s1 ++ "." ++ t1 = s2 ++ "." ++ t2)%string -> s1 = s2 /\ t1 = t2.
Proof.
  revert s2; induction s1 as [|c s1 IH]; intros [|d s2]; simpl.
  - intros _ _ [= ->]; auto.
  - intros _ Hd [= <- _]; discriminate.
  - intros Hc _ [= -> _]; discriminate.
  - intros Hc Hd [= -> E].
    apply andb_true_iff in Hc as [_ Hc], Hd as [_ Hd].
    destruct (IH s2 Hc Hd E) as [-> ->]; auto.
Qed.

(** [IpAddress.String] renders distinct addresses as distinct texts, and
    every text has between 7 and 15 characters, so is never empty. *)
Theorem IpAddress_String_faithful (ip ip' : IpAddress) :
  (IpAddress_String ip = IpAddress_String ip' <-> ip = ip') /\
  (7 <= String.length (IpAddress_String ip) <= 15)%nat.
Proof.
  destruct ip as [[[a b] c] d], ip' as [[[a' b'] c'] d']; split.
  - split; [|now intros [= -> -> -> ->]].
    unfold IpAddress_String; intros H.
    apply split_at_dot in H as [Ha H]; try apply fmt_d_noDot.
    apply split_at_dot in H as [Hb H]; try apply fmt_d_noDot.
    apply split_at_dot in H as [Hc Hd]; try apply fmt_d_noDot.
    apply fmt_d_inj in Ha, Hb, Hc, Hd; now subst.
  - unfold IpAddress_String; rewrite !string_length_app; simpl.
    pose proof (fmt_d_length a); pose proof (fmt_d_length b).
    pose proof (fmt_d_length c); pose proof (fmt_d_length d); lia.
Qed.

(** ** The further properties on the example agent *)

Lemma ProcessMessage_answer_envelope_example :
  Version (respond getAsReader (withError getThree 2 NoSuchName)) = 0 /\
  Community (respond getAsReader (withError getThree 2 NoSuchName))
  = Community getAsReader /\
  (Community getAsReader = public agent \/
   Community getAsReader = private agent) /\
  exists res,
    Pdu_ (respond getAsReader (withError getThree 2 NoSuchName))
    = GetResponsePdu res /\
    List.length (Variables res) = 3%nat.
Proof.
  eapply (ProcessMessage_answer_envelope agent getAsReader start).
  reflexivity.
Defined.

Lemma ProcessDatagram_bytes_inv_example :
  exists request response,
    Example2.Decode [] = inl (request, []) /\
    ProcessMessage agent request start
    = (inl response, snd (ProcessMessage agent getAsReader start)) /\
    Example2.Encode response = inl [].
Proof.
  apply (ProcessDatagram_bytes_inv Example2.Decode Example2.Encode agent []
           start [] (snd (ProcessMessage agent getAsReader start))).
  reflexivity.
Defined.

Lemma ProcessDatagram_undecodable_example :
  exists e,
    ProcessDatagram Example2.DecodeTrailing Example2.Encode agent [] start
    = (inr e, start).
Proof.
  apply ProcessDatagram_undecodable.
  intros request; discriminate.
Defined.

Lemma ProcessDatagram_revisions_agree_example :
  DatagramOnly.ProcessDatagram Example2.Decode Example2.Encode agent [] start =
  ProcessDatagram Example2.Decode Example2.Encode agent [] start.
Proof.
  apply ProcessDatagram_revisions_agree.
  intros request remaining [= <- _]; discriminate.
Defined.

Lemma ProcessDatagram_revisions_differ_example :
  (exists e,
     ProcessDatagram Example2.DecodeVersion1 Example2.Encode agent [] start
     = (inr e, start)) /\
  fst (DatagramOnly.ProcessDatagram Example2.DecodeVersion1 Example2.Encode
         agent [] start) = inl [].
Proof.
  destruct (ProcessDatagram_revisions_differ Example2.DecodeVersion1
              Example2.Encode agent [] start Example2.getVersion1
              eq_refl eq_refl) as [Hdrop Hrun].
  split; [exact Hdrop|].
  rewrite Hrun; reflexivity.
Defined.

Lemma success_calls_example :
  snd (processPdu agent getTwo false false start) =
  {| world := "example";
     calls := [EvLookup sysUpTime false; EvGet sysUpTime;
               EvLookup sysName false; EvGet sysName] |}.
Proof.
  assert (Hall : allSucceed agent false false (world start) (Variables getTwo)
                   [mkVariable sysUpTime (VInt 123);
                    mkVariable sysName (VString "example")] "example").
  { eapply (allSucceed_cons agent false false _ _ _
              {| oid := sysUpTime; get := getUpTime;
                 set := notWritableSetter |});
      [reflexivity|reflexivity|].
    eapply (allSucceed_cons agent false false _ _ _
              {| oid := sysName; get := getName; set := setName |});
      [reflexivity|reflexivity|constructor]. }
  exact (proj1 (success_calls_each_accessor_once agent getTwo false false
                  start _ _ Hall)).
Defined.

Lemma failure_keeps_earlier_effects_example :
  snd (processPdu agent setTwo false true start) =
  {| world := "renamed";
     calls := [EvLookup sysName false; EvSet sysName (VString "renamed");
               EvLookup sysUpTime false; EvSet sysUpTime (VInt 0)] |}.
Proof.
  assert (Hpre : allSucceed agent false true (world start)
                   [mkVariable sysName (VString "renamed")]
                   [mkVariable sysName VNil] "renamed").
  { eapply (allSucceed_cons agent false true _ _ _
              {| oid := sysName; get := getName; set := setName |});
      [reflexivity|reflexivity|constructor]. }
  destruct (failure_keeps_earlier_effects agent setTwo false true start
              [mkVariable sysName (VString "renamed")]
              (mkVariable sysUpTime (VInt 0)) [] _ _ eq_refl Hpre)
    as [_ Hsome].
  exact (Hsome {| oid := sysUpTime; get := getUpTime;
                  set := notWritableSetter |}
               VNil (IsError (Errorf NotWritable "OID %s is not writable"))
               "renamed" eq_refl eq_refl).
Defined.

Lemma failure_stops_processing_example :
  snd (processPdu agent getThree false false start) =
  snd (processPdu agent Example2.getFirstTwo false false start) /\
  ErrorStatus (fst (processPdu agent getThree false false start)) =
  ErrorStatus (fst (processPdu agent Example2.getFirstTwo false false start)) /\
  ErrorIndex (fst (processPdu agent getThree false false start)) =
  ErrorIndex (fst (processPdu agent Example2.getFirstTwo false false start)).
Proof.
  assert (Hpre : allSucceed agent false false (world start)
                   [binding sysUpTime] [mkVariable sysUpTime (VInt 123)]
                   "example").
  { eapply (allSucceed_cons agent false false _ _ _
              {| oid := sysUpTime; get := getUpTime;
                 set := notWritableSetter |});
      [reflexivity|reflexivity|constructor]. }
  apply (failure_stops_processing agent getThree Example2.getFirstTwo
           false false start [binding sysUpTime] (binding sysContact)
           [binding sysName] [] _ _ NoSuchName eq_refl eq_refl Hpre).
  apply fails_unresolved; reflexivity.
Defined.

Lemma read_community_never_sets_example :
  exists tr,
    calls (snd (ProcessMessage agent setAsReader start)) = calls start ++ tr /\
    existsb isSetCall tr = false.
Proof.
  apply read_community_never_sets; reflexivity.
Defined.

Lemma pure_getters_keep_world_example :
  world (snd (processPdu agent getThree false false start)) = world start.
Proof.
  apply pure_getters_keep_world.
  intros h Hin o w.
  change (handlers agent)
    with [ {| oid := sysUpTime; get := getUpTime; set := notWritableSetter |};
           {| oid := sysName; get := getName; set := setName |} ] in Hin.
  destruct Hin as [<-|[<-|[]]]; reflexivity.
Defined.

Lemma get_echoes_getnext_advances_example :
  Forall2 (fun request answer => Cmp (Name request) (Name answer) < 0)
    (Variables Example2.nextTwo)
    (Variables (fst (processPdu agent Example2.nextTwo true false start))).
Proof.
  assert (Hall : allSucceed agent true false (world start)
                   (Variables Example2.nextTwo)
                   [mkVariable sysUpTime (VInt 123);
                    mkVariable sysName (VString "example")] "example").
  { eapply (allSucceed_cons agent true false _ _ _
              {| oid := sysUpTime; get := getUpTime;
                 set := notWritableSetter |});
      [reflexivity|reflexivity|].
    eapply (allSucceed_cons agent true false _ _ _
              {| oid := sysName; get := getName; set := setName |});
      [reflexivity|reflexivity|constructor]. }
  exact (get_echoes_getnext_advances agent Example2.nextTwo true start _ _
           Hall).
Defined.

Lemma getnext_walks_registry_example :
  getManagedObject agent sysUpTime true = nth_error (handlers agent) 1 /\
  getManagedObject agent sysName true = None.
Proof.
  split.
  - exact (proj1 (getnext_walks_registry setupCalls 0
                    {| oid := sysUpTime; get := getUpTime;
                       set := notWritableSetter |} eq_refl)).
  - exact (proj1 (getnext_walks_registry setupCalls 1
                    {| oid := sysName; get := getName; set := setName |}
                    eq_refl)).
Defined.

Lemma registration_then_lookup_example :
  getManagedObject
    (setup (setupCalls ++ [CallAddRw sysContact (Some getBroken) None]))
    sysContact false
  = Some {| oid := sysContact; get := getBroken; set := notWritableSetter |}.
Proof.
  assert (Hnew : ~ In sysContact (registeredOids setupCalls)).
  { simpl; intros [H|[H|[]]]; discriminate. }
  exact (proj1 (proj2 (registration_then_lookup setupCalls sysContact
                         getBroken None Hnew))).
Defined.

Lemma registration_order_irrelevant_example :
  handlers (setup setupCalls) = handlers (setup Example2.reorderedCalls).
Proof.
  assert (Hp : Permutation setupCalls Example2.reorderedCalls).
  { unfold setupCalls, Example2.reorderedCalls.
    eapply perm_trans; [apply perm_skip, perm_swap|apply perm_swap]. }
  assert (Hnd : NoDup (registeredOids setupCalls)).
  { simpl; constructor; [intros [H|[]]; discriminate|].
    constructor; [intros []|constructor]. }
  exact (proj1 (registration_order_irrelevant setupCalls
                  Example2.reorderedCalls Hp Hnd)).
Defined.
